(** * The matrix finder of CryptoMiniSat's Gauss-Jordan subsystem

    A shallow embedding of [src/matrixfinder.cpp]: the partitioning loop of
    [MatrixFinder::find_matrices], which groups XOR constraints into connected
    components, and [MatrixFinder::setup_matrices_attach_remaining_cls], which
    measures every component and decides which ones become elimination
    matrices.

    Conventions.
    - A [uint32_t] variable or component number is a [nat], so that it can
      index a vector directly; the counters of the source are [N], with the
      wrap-around of [uint32_t] written out where the source declares one.
    - [vector<T>] is [list T], [map<uint32_t, T>] is [gmap nat T],
      [set<uint32_t>] is an increasing list (its iteration order matters).
    - [table] holds [var_Undef] or a component number (which stays below
      [var_Undef]): a list of [option nat].  Reading it out of range is
      undefined in the source; here it reads as [var_Undef], and the
      statements ask for variables below [nVars].
    - [double] is the kernel's binary64 [float].
    - A failed [assert], [x[0]] on an empty XOR and an undefined conversion
      make a routine return [None].
    - The solver's operations that the sources do not contain are the
      fields of the class [Collaborators]; the statements hold for every
      instance.
    - The diagnostic output ([verb_print], [cout]) and the timing are left
      out: they do not change the state. *)

From Stdlib Require Import ZArith NArith Floats.PrimFloat Uint63.
From stdpp Require Import base option list gmap sorting.

#[local] Set Warnings "-clear-no-such-hyp,-inexact-float".
Open Scope nat_scope.

(** ** Data model *)

(** Modelled from the spec: [Xor] is declared in [xor.h], which the sources do
    not contain.  The spec gives it an ordered sequence of variables, a
    right-hand side, clash variables and the matrix-membership tag; the code
    reads [x.vars], [x.clash_vars], [x.in_matrix], [x.size()] and [x[0]]. *)
Record Xor := mkXor {
  vars : list nat;
  rhs : bool;
  clash_vars : list nat;
  in_matrix : N
}.

(** [x.size()] *)
Definition xor_size (x : Xor) : N := N.of_nat (length (vars x)).

(** [x.in_matrix = 1000]: the tag of an XOR that is in no matrix. *)
Definition not_in_matrix : N := 1000%N.

Definition set_in_matrix (n : N) (x : Xor) : Xor :=
  {| vars := vars x; rhs := rhs x; clash_vars := clash_vars x; in_matrix := n |}.

(** ** The component tables *)

(** [table]: one slot per solver variable, [None] standing for [var_Undef]. *)
Definition tbl (table : list (option nat)) (v : nat) : option nat :=
  default None (table !! v).

Record PartState := mkPart {
  table : list (option nat);
  reverseTable : gmap nat (list nat);
  matrix_no : nat
}.

(** [table.clear(); table.resize(nVars, var_Undef); reverseTable.clear();
    matrix_no = 0] *)
Definition part_init (nv : nat) : PartState :=
  {| table := replicate nv None; reverseTable := ∅; matrix_no := 0 |}.

(** [std::set<uint32_t>::insert] on the increasing list of its elements. *)
Fixpoint set_insert (c : nat) (s : list nat) : list nat :=
  match s with
  | [] => [c]
  | d :: s' =>
      if decide (c < d) then c :: s
      else if decide (c = d) then s
      else d :: set_insert c s'
  end.

(** [MatrixFinder::belong_same_matrix]; [comp_num = None] is the initial
    [numeric_limits<uint32_t>::max()]. *)
Fixpoint belong_same_matrix_from (table : list (option nat))
    (comp_num : option nat) (vs : list nat) : bool :=
  match vs with
  | [] => true
  | v :: vs' =>
      match tbl table v with
      | None => false
      | Some c =>
          match comp_num with
          | None => belong_same_matrix_from table (Some c) vs'
          | Some c0 =>
              if decide (c0 ≠ c) then false
              else belong_same_matrix_from table comp_num vs'
          end
      end
  end.

Definition belong_same_matrix (table : list (option nat)) (x : Xor) : bool :=
  belong_same_matrix_from table None (vars x).

(** The scan of one XOR: the components its assigned variables belong to
    ([tomerge]) and its unassigned variables ([newSet]). *)
Definition scan_step (table : list (option nat))
    (acc : list nat * list nat) (v : nat) : list nat * list nat :=
  match tbl table v with
  | Some c => (set_insert c acc.1, acc.2)
  | None => (acc.1, acc.2 ++ [v])
  end.

Definition scan_xor (table : list (option nat)) (vs : list nat)
    : list nat * list nat :=
  foldl (scan_step table) ([], []) vs.

(** [tomerge.size() == 1]: every element of [newSet] is pushed on the
    membership list of [into] and mapped to it. *)
Definition absorb_step (into : nat)
    (acc : list (option nat) * gmap nat (list nat)) (elem : nat)
    : list (option nat) * gmap nat (list nat) :=
  (<[elem := Some into]> acc.1, alter (λ l, l ++ [elem]) into acc.2).

(** Otherwise every touched component is appended to [newSet] and erased. *)
Definition merge_step (acc : list nat * gmap nat (list nat)) (c : nat)
    : list nat * gmap nat (list nat) :=
  (acc.1 ++ acc.2 !!! c, delete c acc.2).

Definition assign_all (c : nat) (table : list (option nat)) (elems : list nat)
    : list (option nat) :=
  foldl (λ t elem, <[elem := Some c]> t) table elems.

(** The body of the loop over [solver->xorclauses]. *)
Definition partition_step (st : PartState) (x : Xor) : PartState :=
  if belong_same_matrix (table st) x then st
  else
    let sc := scan_xor (table st) (vars x) in
    let tomerge := sc.1 in
    let newSet := sc.2 in
    match tomerge with
    | [into] =>
        let r := foldl (absorb_step into) (table st, reverseTable st) newSet in
        {| table := r.1; reverseTable := r.2; matrix_no := matrix_no st |}
    | _ =>
        let m := foldl merge_step (newSet, reverseTable st) tomerge in
        {| table := assign_all (matrix_no st) (table st) m.1;
           reverseTable := <[matrix_no st := m.1]> m.2;
           matrix_no := S (matrix_no st) |}
    end.

Definition partition_loop (nv : nat) (xs : list Xor) : PartState :=
  foldl partition_step (part_init nv) xs.


(** ** Connectivity, as the specification words it *)

(** [links u cs v]: [cs] is a non-empty chain of constraints, the first one
    contains [u], the last one contains [v], and each constraint shares a
    variable with the next. *)
Fixpoint links (u : nat) (cs : list Xor) (v : nat) : Prop :=
  match cs with
  | [] => False
  | x :: cs' =>
      u ∈ vars x ∧
      match cs' with
      | [] => v ∈ vars x
      | _ => ∃ w, w ∈ vars x ∧ links w cs' v
      end
  end.

Definition connected (xs : list Xor) (u v : nat) : Prop :=
  ∃ cs, Forall (λ x, x ∈ xs) cs ∧ links u cs v.

(** The same relation as a closure, which is easier to reason with. *)
Inductive chain (xs : list Xor) : nat → nat → Prop :=
  | chain_xor x u v : x ∈ xs → u ∈ vars x → v ∈ vars x → chain xs u v
  | chain_trans u w v : chain xs u w → chain xs w v → chain xs u v.

(** Two variables are in the same component of a table. *)
Definition same_comp (t : list (option nat)) (u v : nat) : Prop :=
  ∃ c, tbl t u = Some c ∧ tbl t v = Some c.

(** A variable is reached by the XOR [x]: it occurs in [x], or it shares its
    component (under the relation [R]) with a variable of [x]. *)
Definition touched (R : nat → nat → Prop) (x : Xor) (u : nat) : Prop :=
  u ∈ vars x ∨ ∃ w, w ∈ vars x ∧ R u w.

(** The invariant of the partitioning loop. *)
Record part_inv (nv : nat) (st : PartState) : Prop := mkInv {
  inv_length : length (table st) = nv;
  inv_inverse : ∀ v c,
    tbl (table st) v = Some c ↔ ∃ l, reverseTable st !! c = Some l ∧ v ∈ l;
  inv_fresh : ∀ c, is_Some (reverseTable st !! c) → c < matrix_no st
}.

Definition vars_in_range (nv : nat) (x : Xor) : Prop :=
  Forall (λ v, v < nv) (vars x).

(** No membership list repeats a variable. *)
Definition part_nodup (st : PartState) : Prop :=
  ∀ c l, reverseTable st !! c = Some l → NoDup l.

(** ** The solver, as far as the matrix finder sees it *)

Inductive lbool := l_True | l_False | l_Undef.

Definition lbool_defined (b : lbool) : bool :=
  match b with l_Undef => false | _ => true end.

(** [solver->conf.gaussconf] *)
Record GaussConf := mkGaussConf {
  doMatrixFind : bool;
  min_gauss_xor_clauses : N;
  max_gauss_xor_clauses : N;
  max_matrix_rows : N;
  max_matrix_columns : N;
  min_matrix_rows : N;
  max_num_matrices : N
}.

(** [solver->conf]; [sampling_vars = None] is the null pointer. *)
Record SolverConf := mkConf {
  gaussconf : GaussConf;
  sampling_vars : option (list nat)
}.

Definition set_max_matrix_rows (r : N) (c : SolverConf) : SolverConf :=
  {| gaussconf :=
       {| doMatrixFind := doMatrixFind (gaussconf c);
          min_gauss_xor_clauses := min_gauss_xor_clauses (gaussconf c);
          max_gauss_xor_clauses := max_gauss_xor_clauses (gaussconf c);
          max_matrix_rows := r;
          max_matrix_columns := max_matrix_columns (gaussconf c);
          min_matrix_rows := min_matrix_rows (gaussconf c);
          max_num_matrices := max_num_matrices (gaussconf c) |};
     sampling_vars := sampling_vars c |}.

(** [new EGaussian(solver, realMatrixNum, xorsInMatrix[i])]: the matrix
    number and the XORs the matrix is built from. *)
Record EGaussian := mkEGaussian {
  matrix_num : N;
  matrix_xors : list Xor
}.

Record Solver := mkSolver {
  nVars : nat;
  conf : SolverConf;
  ok : bool;
  decisionLevel : nat;
  xorclauses : list Xor;
  xors_attached : bool;
  gmatrices : list EGaussian;
  gqueuedata : nat;
  seen : list bool;
  clash_decision_vars : list nat
}.

Definition set_conf (c : SolverConf) (s : Solver) : Solver :=
  {| nVars := nVars s; conf := c; ok := ok s;
     decisionLevel := decisionLevel s; xorclauses := xorclauses s;
     xors_attached := xors_attached s; gmatrices := gmatrices s;
     gqueuedata := gqueuedata s; seen := seen s;
     clash_decision_vars := clash_decision_vars s |}.

Definition set_xorclauses (xs : list Xor) (s : Solver) : Solver :=
  {| nVars := nVars s; conf := conf s; ok := ok s;
     decisionLevel := decisionLevel s; xorclauses := xs;
     xors_attached := xors_attached s; gmatrices := gmatrices s;
     gqueuedata := gqueuedata s; seen := seen s;
     clash_decision_vars := clash_decision_vars s |}.

Definition set_seen (sn : list bool) (s : Solver) : Solver :=
  {| nVars := nVars s; conf := conf s; ok := ok s;
     decisionLevel := decisionLevel s; xorclauses := xorclauses s;
     xors_attached := xors_attached s; gmatrices := gmatrices s;
     gqueuedata := gqueuedata s; seen := sn;
     clash_decision_vars := clash_decision_vars s |}.

Definition set_gqueuedata (q : nat) (s : Solver) : Solver :=
  {| nVars := nVars s; conf := conf s; ok := ok s;
     decisionLevel := decisionLevel s; xorclauses := xorclauses s;
     xors_attached := xors_attached s; gmatrices := gmatrices s;
     gqueuedata := q; seen := seen s;
     clash_decision_vars := clash_decision_vars s |}.

(** [solver->gmatrices.push_back(g);
    solver->gqueuedata.resize(solver->gmatrices.size())] *)
Definition push_gmatrix (g : EGaussian) (s : Solver) : Solver :=
  {| nVars := nVars s; conf := conf s; ok := ok s;
     decisionLevel := decisionLevel s; xorclauses := xorclauses s;
     xors_attached := xors_attached s; gmatrices := gmatrices s ++ [g];
     gqueuedata := length (gmatrices s ++ [g]); seen := seen s;
     clash_decision_vars := clash_decision_vars s |}.

(** [solver->set_clash_decision_vars(clash_vars)] *)
Definition set_clash_decision_vars (cv : list nat) (s : Solver) : Solver :=
  {| nVars := nVars s; conf := conf s; ok := ok s;
     decisionLevel := decisionLevel s; xorclauses := xorclauses s;
     xors_attached := xors_attached s; gmatrices := gmatrices s;
     gqueuedata := gqueuedata s; seen := seen s;
     clash_decision_vars := cv |}.

(** Modelled from the spec: [MatrixShape] is declared in [matrixfinder.h],
    which the sources do not contain; the spec gives it a row count, a
    column count, the sum of the arities, and a density that is 0 until it
    is computed.  [tot_size()] is rows times columns. *)
Record MatrixShape := mkShape {
  num : nat;
  rows : N;
  cols : N;
  sum_xor_sizes : N;
  density : float
}.

Definition tot_size (m : MatrixShape) : N := (rows m * cols m)%N.

Definition set_density (d : float) (m : MatrixShape) : MatrixShape :=
  {| num := num m; rows := rows m; cols := cols m;
     sum_xor_sizes := sum_xor_sizes m; density := d |}.

(** [matrix_shape[matrix].rows++;
    matrix_shape[matrix].sum_xor_sizes += x.size()] *)
Definition count_row (sz : N) (m : MatrixShape) : MatrixShape :=
  {| num := num m; rows := (rows m + 1)%N; cols := cols m;
     sum_xor_sizes := (sum_xor_sizes m + sz)%N; density := density m |}.

(** The operations of the solver that the matrix finder calls and the
    sources do not contain. *)
Class Collaborators := mkCollaborators {
  (** [Xor::trivial] *)
  trivial : Xor → bool;
  (** what [Solver::detach_clear_xorclauses] leaves in [solver->xorclauses] *)
  detached_xorclauses : list Xor → list Xor;
  (** [ClauseCleaner::clean_xor_clauses], on [solver->xorclauses] *)
  clean_xor_clauses : list Xor → list Xor;
  (** [XorFinder::xor_together_xors]: its result and the rewritten list *)
  xor_together_xors : list Xor → bool * list Xor;
  (** the result of [Solver::attach_xorclauses] *)
  attach_xorclauses_result : list Xor → bool;
  (** [Solver::map_to_with_bva], [VarReplacer::get_var_replaced_with_outer],
      [Solver::map_outer_to_inter], [Solver::value] *)
  map_to_with_bva : nat → nat;
  get_var_replaced_with_outer : nat → nat;
  map_outer_to_inter : nat → nat;
  value : nat → lbool;
  (** [std::sort(..., mysorter())]: some rearrangement of the vector *)
  sort_shapes : list MatrixShape → list MatrixShape;
  sort_shapes_perm : ∀ l, sort_shapes l ≡ₚ l
}.

(** [uint32_t] arithmetic *)
Definition u32 (n : N) : N := (n mod 2 ^ 32)%N.

(** [(double)n] *)
Definition to_double (n : N) : float :=
  PrimFloat.of_uint63 (Uint63.of_Z (Z.of_N n)).

(** A left fold whose step may fail. *)
Fixpoint foldl_opt {A B} (f : A → B → option A) (a : A) (l : list B)
    : option A :=
  match l with
  | [] => Some a
  | b :: l' =>
      match f a b with
      | Some a' => foldl_opt f a' l'
      | None => None
      end
  end.

(** ** [setup_matrices_attach_remaining_cls] and [find_matrices] *)

(** The counters of the admission loop. *)
Record Counters := mkCounters {
  realMatrixNum : N;
  unusedMatrix : N;
  too_few_rows_matrix : N
}.

Definition incr_real (k : Counters) : Counters :=
  {| realMatrixNum := u32 (realMatrixNum k + 1);
     unusedMatrix := unusedMatrix k;
     too_few_rows_matrix := too_few_rows_matrix k |}.

Definition incr_unused (k : Counters) : Counters :=
  {| realMatrixNum := realMatrixNum k;
     unusedMatrix := u32 (unusedMatrix k + 1);
     too_few_rows_matrix := too_few_rows_matrix k |}.

Definition incr_too_few (k : Counters) : Counters :=
  {| realMatrixNum := realMatrixNum k;
     unusedMatrix := unusedMatrix k;
     too_few_rows_matrix := u32 (too_few_rows_matrix k + 1) |}.

(** What [find_matrices] leaves behind: its result, the out-parameter, the
    solver and the finder's own tables. *)
Record FindResult := mkFindResult {
  result : bool;
  matrix_created : bool;
  solver_after : Solver;
  part_after : PartState
}.

(** [for (uint32_t int_var: reverseTable[i]) solver->seen[int_var] = b] *)
Definition mark_seen (b : bool) (sn : list bool) (members : list nat)
    : list bool :=
  foldl (λ sn' v, <[v := b]> sn') sn members.

(** [uint32_t size_at_least = (double)sampling_vars->size()*3]; the
    conversion is undefined when the product does not fit. *)
Definition raise_max_matrix_rows (c : SolverConf) : option SolverConf :=
  match sampling_vars c with
  | None => Some c
  | Some sv =>
      let size_at_least := (3 * N.of_nat (length sv))%N in
      if (2 ^ 32 <=? size_at_least)%N then None
      else if (max_matrix_rows (gaussconf c) <? size_at_least)%N
           then Some (set_max_matrix_rows size_at_least c)
           else Some c
  end.

(** [matrix_shape.push_back(MatrixShape(i)); matrix_shape[i].num = i;
    matrix_shape[i].cols = reverseTable[i].size()] for [i < matrix_no].
    ([operator[]] inserts an empty vector for a retired component, which
    later reads through [operator[]] cannot tell from an absent one.) *)
Definition init_shape (p : PartState) (i : nat) : MatrixShape :=
  {| num := i; rows := 0;
     cols := N.of_nat (length (reverseTable p !!! i));
     sum_xor_sizes := 0; density := 0%float |}.

Definition init_shapes (p : PartState) : list MatrixShape :=
  init_shape p <$> seq 0 (matrix_no p).

(** [if (m.tot_size() > 0)
      m.density = (double)m.sum_xor_sizes / (double)(m.tot_size())] *)
Definition compute_density (m : MatrixShape) : MatrixShape :=
  if (0 <? tot_size m)%N
  then set_density (to_double (sum_xor_sizes m) / to_double (tot_size m)) m
  else m.

(** The three size checks, in the order of the code. *)
Definition size_checks (gc : GaussConf) (m : MatrixShape) : bool * bool :=
  let use_matrix := true in
  let use_matrix :=
    if use_matrix && (max_matrix_rows gc <? rows m)%N then false
    else use_matrix in
  let use_matrix :=
    if use_matrix && (max_matrix_columns gc <? cols m)%N then false
    else use_matrix in
  let too_few := use_matrix && (rows m <? min_matrix_rows gc)%N in
  (if too_few then false else use_matrix, too_few).

(** The check against [max_num_matrices] and the override by the sampling
    ratio. *)
Definition final_decision (gc : GaussConf) (sampling : bool)
    (realMatrixNum : N) (m : MatrixShape) (ratio_sampling : float)
    (use_matrix : bool) : bool :=
  let use_matrix :=
    if use_matrix && (max_num_matrices gc <=? realMatrixNum)%N then false
    else use_matrix in
  if (min_matrix_rows gc <? rows m)%N then
    if sampling then
      if (0.6 <=? ratio_sampling)%float then true else false
    else use_matrix
  else use_matrix.

Section matrix_finder.
Context `{!Collaborators}.

(** [Solver::detach_clear_xorclauses]: external; the XORs are taken off the
    watch lists. *)
Definition detach_clear_xorclauses (s : Solver) : Solver :=
  {| nVars := nVars s; conf := conf s; ok := ok s;
     decisionLevel := decisionLevel s;
     xorclauses := detached_xorclauses (xorclauses s);
     xors_attached := false; gmatrices := gmatrices s;
     gqueuedata := gqueuedata s; seen := seen s;
     clash_decision_vars := clash_decision_vars s |}.

(** The body of the loop over [*solver->conf.sampling_vars]; the accumulator
    is [(tot_sampling_vars, sampling_var_inside_matrix)]. *)
Definition sampling_step (nv : nat) (sn : list bool) (acc : N * N)
    (outside_var : nat) : N * N :=
  let outer_var := map_to_with_bva outside_var in
  let outer_var := get_var_replaced_with_outer outer_var in
  let int_var := map_outer_to_inter outer_var in
  let tot := u32 (acc.1 + 1) in
  if lbool_defined (value int_var) then (tot, u32 (acc.2 + 1))
  else if bool_decide (int_var < nv) && default false (sn !! int_var)
       then (tot, u32 (acc.2 + 1))
       else (tot, acc.2).

(** The computation of [ratio_sampling] for one component; also returns the
    [seen] array as it is left. *)
Definition calc_ratio_sampling (s : Solver) (members : list nat)
    (sv : list nat) : float * list bool :=
  let sn := mark_seen true (seen s) members in
  let cnt := foldl (sampling_step (nVars s) sn) (0%N, 0%N) sv in
  let sn := mark_seen false sn members in
  ((to_double cnt.2 / to_double cnt.1)%float, sn).

(** [double ratio_sampling = 0.0; if (solver->conf.sampling_vars) { ... }]
    for component [i]. *)
Definition ratio_sampling_block (p : PartState) (s : Solver) (i : nat)
    : float * list bool :=
  match sampling_vars (conf s) with
  | Some sv => calc_ratio_sampling s (reverseTable p !!! i) sv
  | None => (0%float, seen s)
  end.

(** The body of the loop over [solver->xorclauses] that fills
    [matrix_shape] and [xorsInMatrix]. *)
Definition gather_step (p : PartState)
    (acc : list MatrixShape * list (list Xor)) (x : Xor)
    : option (list MatrixShape * list (list Xor)) :=
  if trivial x then Some acc
  else
    match head (vars x) with
    | None => None
    | Some v0 =>
        match tbl (table p) v0 with
        | None => None
        | Some matrix =>
            if decide (matrix < matrix_no p) then
              Some (alter (count_row (xor_size x)) matrix acc.1,
                    alter (λ l, l ++ [x]) matrix acc.2)
            else None
        end
    end.

Definition gather (p : PartState) (xs : list Xor)
    : option (list MatrixShape * list (list Xor)) :=
  foldl_opt (gather_step p) (init_shapes p, replicate (matrix_no p) []) xs.

(** The body of the loop [for (int a = matrix_no-1; a >= 0; a--)]. *)
Definition admit_step (p : PartState) (xorsInMatrix : list (list Xor))
    (st : Solver * Counters) (m : MatrixShape) : Solver * Counters :=
  let s := st.1 in
  let k := st.2 in
  let gc := gaussconf (conf s) in
  let i := num m in
  if (rows m =? 0)%N then st
  else
    let sc := size_checks gc m in
    let use_matrix := sc.1 in
    let k := if sc.2 then incr_too_few k else k in
    let rs := ratio_sampling_block p s i in
    let ratio_sampling := rs.1 in
    let s := set_seen rs.2 s in
    let use_matrix :=
      final_decision gc (bool_decide (is_Some (sampling_vars (conf s))))
        (realMatrixNum k) m ratio_sampling use_matrix in
    if use_matrix then
      (push_gmatrix {| matrix_num := realMatrixNum k;
                       matrix_xors := xorsInMatrix !!! i |} s,
       incr_real k)
    else
      (set_xorclauses
         (xorclauses s ++ (set_in_matrix not_in_matrix <$> xorsInMatrix !!! i))
         s,
       incr_unused k).

(** [Solver::attach_xorclauses]: external; the XORs of [solver->xorclauses]
    are put back on the watch lists and the solver's status is returned. *)
Definition attach_xorclauses (s : Solver) : Solver :=
  {| nVars := nVars s; conf := conf s;
     ok := ok s && attach_xorclauses_result (xorclauses s);
     decisionLevel := decisionLevel s; xorclauses := xorclauses s;
     xors_attached := true; gmatrices := gmatrices s;
     gqueuedata := gqueuedata s; seen := seen s;
     clash_decision_vars := clash_decision_vars s |}.

(** The state of the admission loop after the components [ms]. *)
Definition admit_loop (p : PartState) (xorsInMatrix : list (list Xor))
    (s : Solver) (ms : list MatrixShape) : Solver * Counters :=
  foldl (admit_step p xorsInMatrix) (s, mkCounters 0 0 0) ms.

Definition setup_matrices_attach_remaining_cls (p : PartState) (s : Solver)
    : option (Solver * N) :=
  match raise_max_matrix_rows (conf s) with
  | None => None
  | Some c =>
      let s := set_conf c s in
      match gather p (xorclauses s) with
      | None => None
      | Some g =>
          let xorsInMatrix := g.2 in
          let s := set_xorclauses [] s in
          let matrix_shape := sort_shapes (compute_density <$> g.1) in
          let r := admit_loop p xorsInMatrix s (reverse matrix_shape) in
          Some (attach_xorclauses r.1, realMatrixNum r.2)
      end
  end.

(** [set<uint32_t> clash_vars] filled from every XOR. *)
Definition collect_clash_vars (xs : list Xor) : list nat :=
  foldl (λ acc x, foldl (λ acc' v, set_insert v acc') acc (clash_vars x))
    [] xs.

(** The exits of [find_matrices] that skip the matrix finding:
    [solver->gqueuedata.clear(); return solver->attach_xorclauses();] *)
Definition skip_matrices (created : bool) (p : PartState) (s : Solver)
    : FindResult :=
  let s := attach_xorclauses (set_gqueuedata 0 s) in
  {| result := ok s; matrix_created := created; solver_after := s;
     part_after := p |}.

Definition find_matrices (s : Solver) : option FindResult :=
  if negb (bool_decide (decisionLevel s = 0)) then None
  else if negb (ok s) then None
  else if negb (bool_decide (gmatrices s = [])) then None
  else
    let s := detach_clear_xorclauses s in
    let matrix_created := true in
    let p := part_init (nVars s) in
    let s := set_xorclauses (clean_xor_clauses (xorclauses s)) s in
    let together := xor_together_xors (xorclauses s) in
    let s := set_xorclauses together.2 s in
    if negb together.1 then
      Some {| result := false; matrix_created := matrix_created;
              solver_after := s; part_after := p |}
    else
      let s := set_clash_decision_vars (collect_clash_vars (xorclauses s)) s in
      let gc := gaussconf (conf s) in
      let n_xors := N.of_nat (length (xorclauses s)) in
      if (n_xors <? min_gauss_xor_clauses gc)%N then
        Some (skip_matrices false p s)
      else if (max_gauss_xor_clauses gc <? n_xors)%N
              && bool_decide (is_Some (sampling_vars (conf s))) then
        Some (skip_matrices false p s)
      else if negb (doMatrixFind gc) then
        Some (skip_matrices matrix_created p s)
      else
        let p := foldl partition_step p (xorclauses s) in
        match setup_matrices_attach_remaining_cls p s with
        | None => None
        | Some r =>
            Some {| result := ok r.1; matrix_created := matrix_created;
                    solver_after := r.1; part_after := p |}
        end.

End matrix_finder.

(** ** Vocabulary of the statements *)

Definition sum_sizes (xs : list Xor) : N :=
  foldr (λ x a, (xor_size x + a)%N) 0%N xs.

Section vocabulary.
Context `{!Collaborators}.

(** The component an XOR is filed under: that of its first variable. *)
Definition component_of (p : PartState) (x : Xor) : option nat :=
  head (vars x) ≫= tbl (table p).

(** The non-trivial XORs of [xs] whose first variable maps to component
    [i], in the order of [xs]. *)
Definition rows_of (p : PartState) (i : nat) (xs : list Xor) : list Xor :=
  filter (λ x, trivial x = false ∧ component_of p x = Some i) xs.

Definition nontrivial (xs : list Xor) : list Xor :=
  filter (λ x, trivial x = false) xs.

(** Every non-trivial XOR has a first variable, and the table maps it to a
    component number below [matrix_no]: what [x[0]] and
    [assert(matrix < matrix_no)] need. *)
Definition well_placed (p : PartState) (xs : list Xor) : Prop :=
  Forall (λ x, trivial x = false →
               ∃ c, component_of p x = Some c ∧ c < matrix_no p) xs.

Definition nonempty_unless_trivial (xs : list Xor) : Prop :=
  Forall (λ x, trivial x = false → vars x ≠ []) xs.

(** The number of sampling variables that resolve to an assigned variable
    or to a member of the component. *)
Definition resolve (outside_var : nat) : nat :=
  map_outer_to_inter (get_var_replaced_with_outer (map_to_with_bva outside_var)).

Definition covered (members : list nat) (sv : list nat) : list nat :=
  filter (λ ov, lbool_defined (value (resolve ov)) = true ∨
                resolve ov ∈ members) sv.


(** The shape of component [i] once the XORs [xs] are counted. *)
Definition shape_of (p : PartState) (xs : list Xor) (i : nat) : MatrixShape :=
  {| num := i;
     rows := N.of_nat (length (rows_of p i xs));
     cols := N.of_nat (length (reverseTable p !!! i));
     sum_xor_sizes := sum_sizes (rows_of p i xs);
     density := 0%float |}.

(** [matrix_shape] and [xorsInMatrix] once the XORs [xs] are filed. *)
Definition gathered (p : PartState) (xs : list Xor)
    : list MatrixShape * list (list Xor) :=
  (shape_of p xs <$> seq 0 (matrix_no p),
   (λ i, rows_of p i xs) <$> seq 0 (matrix_no p)).

(** The decision taken for the component [m] in the state [st]. *)
Definition use_matrix_of (p : PartState) (st : Solver * Counters)
    (m : MatrixShape) : bool :=
  final_decision (gaussconf (conf st.1))
    (bool_decide (is_Some (sampling_vars (conf st.1))))
    (realMatrixNum st.2) m (ratio_sampling_block p st.1 (num m)).1
    (size_checks (gaussconf (conf st.1)) m).1.

(** The XORs of component [m], tagged as being in no matrix. *)
Definition returned (xim : list (list Xor)) (m : MatrixShape) : list Xor :=
  set_in_matrix not_in_matrix <$> xim !!! num m.

(** What the external preprocessing of [find_matrices] gives: the result of
    [xor_together_xors] and the XORs it leaves. *)
Definition combined (s : Solver) : bool * list Xor :=
  xor_together_xors
    (clean_xor_clauses (detached_xorclauses (xorclauses s))).

(** The solver when [find_matrices] has detached, cleaned and combined the
    XORs and recorded the clash variables. *)
Definition prepared (s : Solver) : Solver :=
  set_clash_decision_vars (collect_clash_vars (combined s).2)
    (set_xorclauses (combined s).2
       (set_xorclauses (clean_xor_clauses (detached_xorclauses (xorclauses s)))
          (detach_clear_xorclauses s))).

End vocabulary.

(** The XORs that are inside some elimination matrix. *)
Definition in_matrices (gs : list EGaussian) : list Xor :=
  concat (matrix_xors <$> gs).

(** The [seen] array is clear. *)
Definition seen_clear (sn : list bool) : Prop := Forall (λ b, b = false) sn.

(** ** A small instance, for the examples *)

Definition by_sum_of_sizes (a b : MatrixShape) : Prop :=
  (sum_xor_sizes a ≤ sum_xor_sizes b)%N.

Definition by_sum_of_sizes_dec : RelDecision by_sum_of_sizes :=
  λ a b, decide (sum_xor_sizes a ≤ sum_xor_sizes b)%N.

(** Collaborators that leave the XORs as they are; variable 4 is assigned,
    an XOR is trivial when it is [0 = 0], and the shapes are sorted by the
    sum of the arities. *)
Definition demo_collaborators (together_ok : bool) : Collaborators :=
  {| trivial x := bool_decide (vars x = []) && negb (rhs x);
     detached_xorclauses xs := xs;
     clean_xor_clauses xs := xs;
     xor_together_xors xs := (together_ok, xs);
     attach_xorclauses_result xs := true;
     map_to_with_bva v := v;
     get_var_replaced_with_outer v := v;
     map_outer_to_inter v := v;
     value v := if decide (v = 4) then l_True else l_Undef;
     sort_shapes := @merge_sort _ by_sum_of_sizes by_sum_of_sizes_dec;
     sort_shapes_perm := @merge_sort_Permutation _ by_sum_of_sizes
                           by_sum_of_sizes_dec |}.

(** [v1 + v2 = 0], [v2 + v3 = 0], [v4 + v5 = 0] and the trivial [0 = 0]. *)
Definition demo_xors : list Xor :=
  [ mkXor [1; 2] false [] 0; mkXor [2; 3] false [] 0;
    mkXor [4; 5] false [] 0; mkXor [] false [] 0 ].

Definition demo_gaussconf : GaussConf :=
  {| doMatrixFind := true;
     min_gauss_xor_clauses := 1; max_gauss_xor_clauses := 1000;
     max_matrix_rows := 1; max_matrix_columns := 100;
     min_matrix_rows := 1; max_num_matrices := 10 |}.

Definition example_solver (gc : GaussConf) (sv : option (list nat))
    : Solver :=
  {| nVars := 6;
     conf := {| gaussconf := gc; sampling_vars := sv |};
     ok := true; decisionLevel := 0; xorclauses := demo_xors;
     xors_attached := true; gmatrices := []; gqueuedata := 0;
     seen := replicate 6 false; clash_decision_vars := [] |}.

Definition demo_solver (sv : option (list nat)) : Solver :=
  example_solver demo_gaussconf sv.

(** The thresholds of the scenarios of the specification. *)
Definition scenario_conf (min_xors max_rows max_num : N) : GaussConf :=
  {| doMatrixFind := true;
     min_gauss_xor_clauses := min_xors; max_gauss_xor_clauses := 1000;
     max_matrix_rows := max_rows; max_matrix_columns := 100;
     min_matrix_rows := 1; max_num_matrices := max_num |}.

(** What a run leaves: the result, the out-parameter, the XORs of each
    matrix and the pool. *)
Definition outcome (r : option FindResult)
    : option (bool * bool * list (list Xor) * list Xor) :=
  (λ r, (result r, matrix_created r,
         matrix_xors <$> gmatrices (solver_after r),
         xorclauses (solver_after r))) <$> r.

Definition demo_plain : Solver := demo_solver None.
Definition demo_sampled : Solver := demo_solver (Some [1]).
Definition demo_sampling_vars : list nat := [1; 4; 5; 0].
Definition demo_sampled4 : Solver := demo_solver (Some demo_sampling_vars).

(** The component [{v1, v2, v3}] of the example, with its two rows. *)
Definition demo_shape : MatrixShape :=
  {| num := 0; rows := 2; cols := 3; sum_xor_sizes := 4; density := 0%float |}.

Definition demo_buckets : list (list Xor) :=
  [ [mkXor [1; 2] false [] 0; mkXor [2; 3] false [] 0];
    [mkXor [4; 5] false [] 0] ].

(** The same solver with matrix finding switched off. *)
Definition demo_disabled : Solver :=
  set_conf
    {| gaussconf :=
         {| doMatrixFind := false;
            min_gauss_xor_clauses := 1; max_gauss_xor_clauses := 1000;
            max_matrix_rows := 100; max_matrix_columns := 100;
            min_matrix_rows := 1; max_num_matrices := 10 |};
       sampling_vars := None |}
    (demo_solver None).

(** ** The helpers for sub-matrix detection *)

(** [MatrixFinder::fingerprint]: the bitwise OR of the variables of an XOR.
    ([|=] on [uint32_t] cannot overflow.) *)
Definition fingerprint_from (fp : N) (vs : list nat) : N :=
  foldl (λ fp' v, N.lor fp' (N.of_nat v)) fp vs.

Definition fingerprint (x : Xor) : N := fingerprint_from 0%N (vars x).

(** [MatrixFinder::firstPartOfSecond]; the two arguments are what is left of
    [c1] from [i1] on and of [c2] from [i2] on.  The loop stops when either
    is used up and the result is [i1 == c1.size()]. *)
Fixpoint firstPartOfSecond_from (c1 c2 : list nat) {struct c2} : bool :=
  match c1 with
  | [] => true
  | a :: c1' =>
      match c2 with
      | [] => false
      | b :: c2' =>
          if decide (a ≠ b) then firstPartOfSecond_from c1 c2'
          else firstPartOfSecond_from c1' c2'
      end
  end.

Definition firstPartOfSecond (c1 c2 : Xor) : bool :=
  firstPartOfSecond_from (vars c1) (vars c2).

(** The test the admission loop applies when no sampling variables are
    configured, as one condition. *)
Definition fits_thresholds (gc : GaussConf) (realMatrixNum : N)
    (m : MatrixShape) : bool :=
  (rows m <=? max_matrix_rows gc)%N && (cols m <=? max_matrix_columns gc)%N
  && (min_matrix_rows gc <=? rows m)%N
  && (realMatrixNum <? max_num_matrices gc)%N.

(** The three conditions under which [find_matrices] skips the work. *)
Definition too_few_xors (s : Solver) (n_xors : N) : Prop :=
  (n_xors < min_gauss_xor_clauses (gaussconf (conf s)))%N.

Definition too_many_xors (s : Solver) (n_xors : N) : Prop :=
  (max_gauss_xor_clauses (gaussconf (conf s)) < n_xors)%N ∧
  is_Some (sampling_vars (conf s)).

Definition switched_off (s : Solver) : Prop :=
  doMatrixFind (gaussconf (conf s)) = false.

(** More solvers for the examples: one that asks for three rows, one with
    room for every component, one with an empty set of sampling variables. *)
Definition demo_strict : Solver :=
  example_solver
    {| doMatrixFind := true;
       min_gauss_xor_clauses := 1; max_gauss_xor_clauses := 1000;
       max_matrix_rows := 100; max_matrix_columns := 100;
       min_matrix_rows := 3; max_num_matrices := 10 |}
    (Some [1]).

Definition demo_roomy : Solver := example_solver (scenario_conf 1 100 10) None.

Definition demo_empty_sampling : Solver := example_solver demo_gaussconf (Some []).

(** More XORs are asked for than the example has. *)
Definition demo_few : Solver := example_solver (scenario_conf 100 100 10) None.

(** [max_matrix_rows] is 1, below both [min_matrix_rows] and three times the
    one sampling variable. *)
Definition demo_raised : Solver :=
  example_solver
    {| doMatrixFind := true;
       min_gauss_xor_clauses := 1; max_gauss_xor_clauses := 1000;
       max_matrix_rows := 1; max_matrix_columns := 100;
       min_matrix_rows := 2; max_num_matrices := 10 |}
    (Some [1]).

(** What the runs on [demo_plain] and [demo_raised] leave. *)
Definition demo_plain_pool : list Xor :=
  [mkXor [1; 2] false [] 1000; mkXor [2; 3] false [] 1000].

Definition demo_plain_matrices : list (list Xor) :=
  [[mkXor [4; 5] false [] 0]].

Definition demo_raised_matrices : list (list Xor) :=
  [[mkXor [1; 2] false [] 0; mkXor [2; 3] false [] 0]].

Definition demo_raised_pool : list Xor := [mkXor [4; 5] false [] 1000].

(** ** Lemmas on the pieces of the loop body *)

Lemma tbl_Some_lt t v c : tbl t v = Some c → v < length t.
Proof.
  unfold tbl. intros H. destruct (t !! v) eqn:E; [|done].
  by eapply lookup_lt_Some.
Qed.

Lemma tbl_replicate n v : tbl (replicate n None) v = None.
Proof.
  unfold tbl. destruct (replicate n None !! v) eqn:E; [|done].
  by apply lookup_replicate in E as [-> _].
Qed.

Lemma elem_of_set_insert x c s : x ∈ set_insert c s ↔ x = c ∨ x ∈ s.
Proof.
  induction s as [|d s IH]; simpl.
  - rewrite list_elem_of_singleton. set_solver.
  - repeat case_decide; subst; rewrite ?elem_of_cons, ?IH; naive_solver.
Qed.

(** The list stays strictly increasing: it stands for a [std::set]. *)
Lemma set_insert_sorted c s :
  StronglySorted lt s → StronglySorted lt (set_insert c s).
Proof.
  induction 1 as [|d s Hs IH Hd]; simpl.
  - repeat constructor.
  - rewrite Forall_forall in Hd. repeat case_decide.
    + constructor; [by constructor; [|apply Forall_forall]|].
      constructor; [done|]. apply Forall_forall. intros y Hy.
      specialize (Hd y Hy). lia.
    + constructor; [done|]. by apply Forall_forall.
    + constructor; [done|]. apply Forall_forall. intros y Hy.
      apply elem_of_set_insert in Hy as [->|Hy]; [lia|]. by apply Hd.
Qed.

Lemma scan_xor_tomerge_sorted t vs : StronglySorted lt (scan_xor t vs).1.
Proof.
  unfold scan_xor.
  assert (H : ∀ acc, StronglySorted lt acc.1 →
                StronglySorted lt (foldl (scan_step t) acc vs).1).
  { induction vs as [|v vs IH]; intros acc Hacc; simpl; [done|].
    apply IH. unfold scan_step. destruct (tbl t v); simpl; [|done].
    by apply set_insert_sorted. }
  apply H. constructor.
Qed.

Lemma scan_fold_tomerge t vs acc c :
  c ∈ (foldl (scan_step t) acc vs).1 ↔
  c ∈ acc.1 ∨ ∃ v, v ∈ vs ∧ tbl t v = Some c.
Proof.
  revert acc. induction vs as [|v vs IH]; intros acc; simpl.
  - set_solver.
  - rewrite IH. unfold scan_step.
    destruct (tbl t v) as [d|] eqn:E; simpl.
    + rewrite elem_of_set_insert. set_solver.
    + set_solver.
Qed.

Lemma scan_fold_newSet t vs acc v :
  v ∈ (foldl (scan_step t) acc vs).2 ↔
  v ∈ acc.2 ∨ (v ∈ vs ∧ tbl t v = None).
Proof.
  revert acc. induction vs as [|w vs IH]; intros acc; simpl.
  - set_solver.
  - rewrite IH. unfold scan_step.
    destruct (tbl t w) as [d|] eqn:E; simpl.
    + set_solver.
    + rewrite elem_of_app, list_elem_of_singleton. set_solver.
Qed.

Lemma scan_xor_tomerge t vs c :
  c ∈ (scan_xor t vs).1 ↔ ∃ v, v ∈ vs ∧ tbl t v = Some c.
Proof. unfold scan_xor. rewrite scan_fold_tomerge. set_solver. Qed.

Lemma scan_xor_newSet t vs v :
  v ∈ (scan_xor t vs).2 ↔ v ∈ vs ∧ tbl t v = None.
Proof. unfold scan_xor. rewrite scan_fold_newSet. set_solver. Qed.

Lemma belong_same_matrix_from_Some t c vs :
  belong_same_matrix_from t (Some c) vs = true ↔
  Forall (λ v, tbl t v = Some c) vs.
Proof.
  induction vs as [|v vs IH]; simpl.
  - split; [constructor|done].
  - rewrite Forall_cons. destruct (tbl t v) as [d|] eqn:E.
    + case_decide as Hd.
      * split; [done|]. intros [[=] _]. by destruct Hd.
      * rewrite IH. subst. naive_solver.
    + naive_solver.
Qed.

Lemma belong_same_matrix_true t x :
  belong_same_matrix t x = true →
  ∀ u v, u ∈ vars x → v ∈ vars x → same_comp t u v.
Proof.
  unfold belong_same_matrix. destruct (vars x) as [|w vs] eqn:E; simpl.
  - intros _ u v Hu. by apply elem_of_nil in Hu.
  - destruct (tbl t w) as [c|] eqn:Ew; [|done].
    rewrite belong_same_matrix_from_Some, Forall_forall.
    intros Hall u v Hu Hv. exists c.
    apply elem_of_cons in Hu, Hv.
    split; [destruct Hu as [->|Hu]|destruct Hv as [->|Hv]]; auto.
Qed.

Lemma length_assign_all c t l : length (assign_all c t l) = length t.
Proof.
  unfold assign_all. revert t. induction l as [|e l IH]; intros t; simpl.
  - done.
  - by rewrite IH, length_insert.
Qed.

Lemma tbl_insert_eq t v c : v < length t → tbl (<[v := Some c]> t) v = Some c.
Proof. intros H. unfold tbl. by rewrite list_lookup_insert_eq. Qed.

Lemma tbl_insert_ne t v w c : v ≠ w → tbl (<[v := Some c]> t) w = tbl t w.
Proof. intros H. unfold tbl. by rewrite list_lookup_insert_ne. Qed.

Lemma assign_all_snoc c t l e :
  assign_all c t (l ++ [e]) = <[e := Some c]> (assign_all c t l).
Proof. unfold assign_all. by rewrite foldl_snoc. Qed.

Lemma tbl_assign_all_in c t l v :
  v ∈ l → v < length t → tbl (assign_all c t l) v = Some c.
Proof.
  induction l as [|e l IH] using rev_ind; intros Hv Hlt.
  - by apply elem_of_nil in Hv.
  - rewrite assign_all_snoc. destruct (decide (e = v)) as [->|Hne].
    + apply tbl_insert_eq. by rewrite length_assign_all.
    + rewrite tbl_insert_ne; [|done]. apply IH; [|done].
      apply elem_of_app in Hv as [Hv|Hv]; [done|].
      apply list_elem_of_singleton in Hv. congruence.
Qed.

Lemma tbl_assign_all_notin c t l v :
  v ∉ l → tbl (assign_all c t l) v = tbl t v.
Proof.
  unfold assign_all. revert t. induction l as [|e l IH]; intros t Hv; simpl.
  - done.
  - apply not_elem_of_cons in Hv as [Hne Hv].
    rewrite IH; [|done]. by apply tbl_insert_ne.
Qed.

Lemma absorb_fold into t r ns :
  foldl (absorb_step into) (t, r) ns =
  (assign_all into t ns, alter (λ l, l ++ ns) into r).
Proof.
  revert t r. induction ns as [|e ns IH]; intros t r; simpl.
  - f_equal. symmetry. apply map_eq. intros i. rewrite lookup_alter.
    case_decide as Hi; [|done]. subst i.
    destruct (r !! into); simpl; [|done]. by rewrite app_nil_r.
  - unfold absorb_step at 2; simpl. rewrite IH. f_equal.
    rewrite alter_alter_eq. apply alter_ext. intros l _. simpl.
    by rewrite <-app_assoc.
Qed.

Lemma merge_fold_lookup cs ns r c :
  (foldl merge_step (ns, r) cs).2 !! c =
  if decide (c ∈ cs) then None else r !! c.
Proof.
  revert ns r. induction cs as [|d cs IH]; intros ns r.
  - done.
  - cbn [foldl]. unfold merge_step at 2; cbn [fst snd]. rewrite IH.
    destruct (decide (c ∈ cs)) as [Hin|Hnin].
    + rewrite decide_True; [done|]. by apply list_elem_of_further.
    + destruct (decide (c = d)) as [->|Hne].
      * rewrite lookup_delete_eq, decide_True; [done|]. apply list_elem_of_here.
      * rewrite lookup_delete_ne by done.
        rewrite decide_False; [done|]. set_solver.
Qed.

Lemma merge_fold_elem cs ns (r : gmap nat (list nat)) v :
  v ∈ (foldl merge_step (ns, r) cs).1 ↔
  v ∈ ns ∨ ∃ c l, c ∈ cs ∧ r !! c = Some l ∧ v ∈ l.
Proof.
  revert ns r. induction cs as [|d cs IH]; intros ns r; simpl.
  - set_solver.
  - unfold merge_step; simpl. rewrite IH, elem_of_app. split.
    + intros [[Hv|Hv]|(c & l & Hc & Hl & Hv)].
      * by left.
      * right. rewrite lookup_total_alt in Hv.
        destruct (r !! d) as [l|] eqn:E; simpl in Hv.
        -- exists d, l. set_solver.
        -- by apply elem_of_nil in Hv.
      * right. exists c, l. apply lookup_delete_Some in Hl as [Hne Hl].
        set_solver.
    + intros [Hv|(c & l & Hc & Hl & Hv)].
      * by left; left.
      * destruct (decide (c = d)) as [->|Hne].
        -- left; right. by rewrite lookup_total_alt, Hl.
        -- right. exists c, l. rewrite lookup_delete_ne; [|done]. set_solver.
Qed.

(** ** One step of the loop *)

Lemma same_comp_sym t u v : same_comp t u v → same_comp t v u.
Proof. intros (c & ? & ?). by exists c. Qed.

Lemma same_comp_trans t u w v :
  same_comp t u w → same_comp t w v → same_comp t u v.
Proof. intros (c & ? & ?) (d & ? & ?). exists c. split; congruence. Qed.

Lemma touched_closed (R : nat → nat → Prop) x u v :
  (∀ a b, R a b → R b a) → (∀ a b c, R a b → R b c → R a c) →
  R u v → touched R x u → touched R x v.
Proof.
  intros Hsym Htrans Huv [Hu|(w & Hw & Huw)]; right.
  - exists u. split; [done|]. by apply Hsym.
  - exists w. split; [done|]. eapply Htrans; [apply Hsym|]; eassumption.
Qed.

Lemma touched_ext (R R' : nat → nat → Prop) x u :
  (∀ a b, R a b ↔ R' a b) → touched R x u ↔ touched R' x u.
Proof.
  intros H. unfold touched. split; intros [?|(w & ? & ?)]; auto;
    right; exists w; split; auto; by apply H.
Qed.

(** How the relation "same component" changes when every touched variable
    moves to component [k] and nothing else changes. *)
Lemma same_comp_step t t' k x :
  (∀ u, tbl t' u = Some k ↔ touched (same_comp t) x u) →
  (∀ u c, tbl t u = Some c → tbl t' u = Some c ∨ touched (same_comp t) x u) →
  (∀ u c, tbl t' u = Some c → c ≠ k → tbl t u = Some c) →
  ∀ u v, same_comp t' u v ↔
    same_comp t u v ∨
    (touched (same_comp t) x u ∧ touched (same_comp t) x v).
Proof.
  intros Q1 Q2 Q3 u v. split.
  - intros (c & Hu & Hv). destruct (decide (c = k)) as [->|Hne].
    + right. split; by apply Q1.
    + left. exists c. split; by apply Q3.
  - intros [Huv|[Hu Hv]].
    + assert (Hcl : ∀ a b, same_comp t a b → touched (same_comp t) x a →
                     same_comp t' a b).
      { intros a b Hab Ha. exists k. split; apply Q1; [done|].
        eapply touched_closed; eauto using same_comp_sym, same_comp_trans. }
      destruct Huv as (c & Hu & Hv).
      destruct (Q2 _ _ Hu) as [Hu'|Hu'].
      * destruct (Q2 _ _ Hv) as [Hv'|Hv'].
        -- by exists c.
        -- apply same_comp_sym, Hcl; [by exists c|done].
      * apply Hcl; [by exists c|done].
    + exists k. split; by apply Q1.
Qed.

Section partition_step.
Context (nv : nat) (st : PartState) (x : Xor).
Hypothesis Hinv : part_inv nv st.
Hypothesis Hrange : vars_in_range nv x.

Lemma touched_scan u :
  touched (same_comp (table st)) x u ↔
  u ∈ (scan_xor (table st) (vars x)).2 ∨
  ∃ c, c ∈ (scan_xor (table st) (vars x)).1 ∧ tbl (table st) u = Some c.
Proof.
  rewrite scan_xor_newSet. setoid_rewrite scan_xor_tomerge. split.
  - intros [Hu|(w & Hw & c & Hc & Hc')].
    + destruct (tbl (table st) u) as [c|] eqn:E; [right|by left].
      exists c. split; [by exists u|done].
    + right. exists c. split; [by exists w|done].
  - intros [[Hu _]|(c & (w & Hw & Hc) & Hu)]; [by left|].
    right. exists w. split; [done|]. by exists c.
Qed.

Lemma touched_lt u : touched (same_comp (table st)) x u → u < nv.
Proof.
  intros [Hu|(w & _ & c & Hc & _)].
  - unfold vars_in_range in Hrange. rewrite Forall_forall in Hrange. auto.
  - rewrite <-(inv_length _ _ Hinv). by eapply tbl_Some_lt.
Qed.

Lemma tbl_lt_matrix_no u c : tbl (table st) u = Some c → c < matrix_no st.
Proof.
  intros Hu. apply (inv_fresh _ _ Hinv).
  apply (inv_inverse _ _ Hinv) in Hu as (l & Hl & _). by exists l.
Qed.

(** The branch taken when [tomerge.size() != 1]. *)
Lemma merge_branch_spec tomerge newSet :
  tomerge = (scan_xor (table st) (vars x)).1 →
  newSet = (scan_xor (table st) (vars x)).2 →
  let m := foldl merge_step (newSet, reverseTable st) tomerge in
  let st' := {| table := assign_all (matrix_no st) (table st) m.1;
                reverseTable := <[matrix_no st := m.1]> m.2;
                matrix_no := S (matrix_no st) |} in
  part_inv nv st' ∧
  ∀ u v, same_comp (table st') u v ↔
    same_comp (table st) u v ∨
    (touched (same_comp (table st)) x u ∧ touched (same_comp (table st)) x v).
Proof.
  intros Htm Hns m st'.
  assert (Hm : ∀ u, u ∈ m.1 ↔ touched (same_comp (table st)) x u).
  { intros u. unfold m. rewrite merge_fold_elem, touched_scan, <-Htm, <-Hns.
    split; (intros [?|H]; [by left|right]).
    - destruct H as (c & l & Hc & Hl & Hu). exists c. split; [done|].
      apply (inv_inverse _ _ Hinv). by exists l.
    - destruct H as (c & Hc & Hu).
      apply (inv_inverse _ _ Hinv) in Hu as (l & Hl & Hu). by exists c, l. }
  assert (Hlen : length (table st) = nv) by apply Hinv.
  assert (Q1 : ∀ u, tbl (table st') u = Some (matrix_no st) ↔
                 touched (same_comp (table st)) x u).
  { intros u. simpl. split.
    - intros Hu. destruct (decide (u ∈ m.1)) as [Hin|Hnin]; [by apply Hm|].
      rewrite tbl_assign_all_notin in Hu by done.
      apply tbl_lt_matrix_no in Hu. lia.
    - intros Hu. apply tbl_assign_all_in; [by apply Hm|].
      rewrite Hlen. by apply touched_lt. }
  assert (Q2 : ∀ u c, tbl (table st) u = Some c →
                 tbl (table st') u = Some c ∨ touched (same_comp (table st)) x u).
  { intros u c Hu. destruct (decide (u ∈ m.1)) as [Hin|Hnin].
    - right. by apply Hm.
    - left. simpl. by rewrite tbl_assign_all_notin. }
  assert (Q3 : ∀ u c, tbl (table st') u = Some c → c ≠ matrix_no st →
                 tbl (table st) u = Some c).
  { intros u c Hu Hne. destruct (decide (u ∈ m.1)) as [Hin|Hnin].
    - apply Hm, Q1 in Hin. congruence.
    - simpl in Hu. by rewrite tbl_assign_all_notin in Hu. }
  split; [|by apply (same_comp_step _ _ (matrix_no st))].
  constructor.
  - simpl. by rewrite length_assign_all.
  - intros v c. cbn [reverseTable st'].
    destruct (decide (c = matrix_no st)) as [->|Hne].
    + rewrite Q1, lookup_insert_eq, <-Hm. split; [by exists m.1|].
      by intros (l & [= <-] & Hv).
    + rewrite lookup_insert_ne by done. unfold m at 1.
      rewrite merge_fold_lookup. split.
      * intros Hv. pose proof (Q3 _ _ Hv Hne) as Hv0.
        rewrite decide_False; [by apply (inv_inverse _ _ Hinv)|].
        intros Hc. assert (touched (same_comp (table st)) x v) as Ht.
        { apply touched_scan. right. exists c. by rewrite <-Htm. }
        apply Q1 in Ht. congruence.
      * intros (l & Hl & Hv). case_decide as Hc; [done|].
        assert (tbl (table st) v = Some c) as Hv0.
        { apply (inv_inverse _ _ Hinv). by exists l. }
        destruct (Q2 _ _ Hv0) as [?|Ht]; [done|].
        apply touched_scan in Ht as [Ht|(d & Hd & Hvd)].
        -- apply scan_xor_newSet in Ht as [_ Ht]. congruence.
        -- rewrite Htm in Hc. congruence.
  - intros c. cbn [reverseTable matrix_no st'].
    destruct (decide (c = matrix_no st)) as [->|Hne]; [lia|].
    rewrite lookup_insert_ne by done. unfold m.
    rewrite merge_fold_lookup. case_decide.
    + by intros [? ?].
    + intros Hc. apply (inv_fresh _ _ Hinv) in Hc. lia.
Qed.

(** The branch taken when [tomerge.size() == 1]. *)
Lemma absorb_branch_spec into :
  (scan_xor (table st) (vars x)).1 = [into] →
  let r := foldl (absorb_step into) (table st, reverseTable st)
             (scan_xor (table st) (vars x)).2 in
  let st' := {| table := r.1; reverseTable := r.2;
                matrix_no := matrix_no st |} in
  part_inv nv st' ∧
  ∀ u v, same_comp (table st') u v ↔
    same_comp (table st) u v ∨
    (touched (same_comp (table st)) x u ∧ touched (same_comp (table st)) x v).
Proof.
  intros Htm. cbv zeta. rewrite absorb_fold. cbn [fst snd].
  set (newSet := (scan_xor (table st) (vars x)).2).
  set (st' := {| table := assign_all into (table st) newSet;
                 reverseTable := alter (λ l, l ++ newSet) into (reverseTable st);
                 matrix_no := matrix_no st |}).
  assert (Hlen : length (table st) = nv) by apply Hinv.
  assert (Ht : ∀ u, touched (same_comp (table st)) x u ↔
                 u ∈ newSet ∨ tbl (table st) u = Some into).
  { intros u. rewrite touched_scan, Htm. fold newSet.
    setoid_rewrite list_elem_of_singleton. naive_solver. }
  assert (Hnew : ∀ u, u ∈ newSet → tbl (table st) u = None).
  { intros u Hu. by apply scan_xor_newSet in Hu as [_ ?]. }
  assert (Hkeep : ∀ u c, tbl (table st) u = Some c →
                    tbl (table st') u = Some c).
  { intros u c Hu. simpl. rewrite tbl_assign_all_notin; [done|].
    intros Hin. apply Hnew in Hin. congruence. }
  assert (Q1 : ∀ u, tbl (table st') u = Some into ↔
                 touched (same_comp (table st)) x u).
  { intros u. rewrite Ht. simpl. split.
    - intros Hu. destruct (decide (u ∈ newSet)) as [Hin|Hnin]; [by left|].
      right. by rewrite tbl_assign_all_notin in Hu.
    - intros [Hu|Hu]; [|by apply Hkeep].
      apply tbl_assign_all_in; [done|]. rewrite Hlen. apply touched_lt.
      apply Ht. by left. }
  assert (Q3 : ∀ u c, tbl (table st') u = Some c → c ≠ into →
                 tbl (table st) u = Some c).
  { intros u c Hu Hne. destruct (decide (u ∈ newSet)) as [Hin|Hnin].
    - assert (tbl (table st') u = Some into); [|congruence].
      apply Q1, Ht. by left.
    - simpl in Hu. by rewrite tbl_assign_all_notin in Hu. }
  split; [|apply (same_comp_step _ _ into); auto].
  assert (∃ l0, reverseTable st !! into = Some l0) as [l0 Hl0].
  { assert (into ∈ (scan_xor (table st) (vars x)).1) as Hin.
    { rewrite Htm. apply list_elem_of_here. }
    apply scan_xor_tomerge in Hin as (w & _ & Hw).
    apply (inv_inverse _ _ Hinv) in Hw as (l & Hl & _). by exists l. }
  constructor.
  - simpl. by rewrite length_assign_all.
  - intros v c. cbn [reverseTable st']. rewrite lookup_alter.
    destruct (decide (into = c)) as [<-|Hne].
    + rewrite Q1, Ht, Hl0. simpl. split.
      * intros Hv. exists (l0 ++ newSet). split; [done|].
        apply elem_of_app. destruct Hv as [Hv|Hv]; [by right|left].
        apply (inv_inverse _ _ Hinv) in Hv as (l & Hl & Hv). congruence.
      * intros (l & [= <-] & Hv). apply elem_of_app in Hv as [Hv|Hv].
        -- right. apply (inv_inverse _ _ Hinv). by exists l0.
        -- by left.
    + rewrite <-(inv_inverse _ _ Hinv). split; [|apply Hkeep].
      intros Hv. by apply Q3.
  - intros c. cbn [reverseTable matrix_no st']. rewrite lookup_alter_is_Some.
    apply (inv_fresh _ _ Hinv).
Qed.

Lemma partition_step_spec :
  part_inv nv (partition_step st x) ∧
  ∀ u v, same_comp (table (partition_step st x)) u v ↔
    same_comp (table st) u v ∨
    (touched (same_comp (table st)) x u ∧ touched (same_comp (table st)) x v).
Proof.
  unfold partition_step.
  destruct (belong_same_matrix (table st) x) eqn:Hbsm.
  - split; [done|]. intros u v. split; [by left|].
    intros [Huv|[Hu Hv]]; [done|].
    pose proof (belong_same_matrix_true _ _ Hbsm) as Hall.
    assert (Hw : ∀ a, touched (same_comp (table st)) x a →
                  ∃ w, w ∈ vars x ∧ same_comp (table st) a w).
    { intros a [Ha|Ha]; [|done]. exists a. split; [done|]. by apply Hall. }
    apply Hw in Hu as (w1 & Hw1 & Hu). apply Hw in Hv as (w2 & Hw2 & Hv).
    eapply same_comp_trans; [exact Hu|].
    eapply same_comp_trans; [by apply (Hall w1 w2)|by apply same_comp_sym].
  - cbv zeta.
    destruct (scan_xor (table st) (vars x)).1 as [|into [|c2 rest]] eqn:Etm.
    + rewrite <-Etm. by apply merge_branch_spec.
    + by apply absorb_branch_spec.
    + rewrite <-Etm. by apply merge_branch_spec.
Qed.

End partition_step.

(** ** Connectivity *)

Lemma chain_sym xs u v : chain xs u v → chain xs v u.
Proof.
  induction 1 as [x u v Hx Hu Hv|u w v _ IH1 _ IH2].
  - by apply (chain_xor xs x).
  - by apply (chain_trans xs v w u).
Qed.

Lemma chain_mono xs ys u v :
  (∀ x, x ∈ xs → x ∈ ys) → chain xs u v → chain ys u v.
Proof.
  intros Hsub. induction 1 as [x u v Hx Hu Hv|u w v _ IH1 _ IH2].
  - apply (chain_xor ys x); auto.
  - by apply (chain_trans ys u w v).
Qed.

Lemma chain_nil u v : ¬ chain [] u v.
Proof.
  induction 1 as [x u v Hx Hu Hv|]; [|done]. by apply elem_of_nil in Hx.
Qed.

(** Adding one constraint joins exactly the variables it touches. *)
Lemma chain_snoc xs x u v :
  chain (xs ++ [x]) u v ↔
  chain xs u v ∨ (touched (chain xs) x u ∧ touched (chain xs) x v).
Proof.
  assert (Hcl : ∀ a b, chain xs a b → touched (chain xs) x a →
                  touched (chain xs) x b).
  { intros a b Hab. apply touched_closed; [apply chain_sym| |done].
    intros a' b' c'. apply chain_trans. }
  split.
  - induction 1 as [y u v Hy Hu Hv|u w v _ IH1 _ IH2].
    + apply elem_of_app in Hy as [Hy|Hy].
      * left. by apply (chain_xor xs y).
      * apply list_elem_of_singleton in Hy as ->. right. split; by left.
    + destruct IH1 as [H1|[Hu Hw]], IH2 as [H2|[Hw' Hv]].
      * left. by apply (chain_trans xs u w v).
      * right. split; [|done]. apply (Hcl w u); [by apply chain_sym|done].
      * right. split; [done|]. by apply (Hcl w v).
      * by right.
  - intros [Huv|[Hu Hv]].
    + apply (chain_mono xs); [|done]. intros y Hy. apply elem_of_app. by left.
    + assert (Hx : x ∈ xs ++ [x]).
      { apply elem_of_app. right. apply list_elem_of_here. }
      assert (Hw : ∀ a, touched (chain xs) x a →
                    ∃ w, w ∈ vars x ∧ chain (xs ++ [x]) a w).
      { intros a [Ha|(w & Hw & Ha)].
        - exists a. split; [done|]. by apply (chain_xor _ x).
        - exists w. split; [done|]. apply (chain_mono xs); [|done].
          intros y Hy. apply elem_of_app. by left. }
      apply Hw in Hu as (w1 & Hw1 & Hu). apply Hw in Hv as (w2 & Hw2 & Hv).
      apply (chain_trans _ u w1 v); [done|].
      apply (chain_trans _ w1 w2 v); [by apply (chain_xor _ x)|].
      by apply chain_sym.
Qed.

(** The closure is the relation of the specification. *)
Lemma links_chain xs cs u v :
  Forall (λ x, x ∈ xs) cs → links u cs v → chain xs u v.
Proof.
  revert u. induction cs as [|x cs IH]; intros u Hall; simpl; [done|].
  apply Forall_cons in Hall as [Hx Hall]. intros [Hu Hrest].
  destruct cs as [|y cs].
  - by apply (chain_xor xs x).
  - destruct Hrest as (w & Hw & Hl).
    apply (chain_trans xs u w v); [by apply (chain_xor xs x)|by apply IH].
Qed.

Lemma links_app u cs1 w cs2 v :
  links u cs1 w → links w cs2 v → links u (cs1 ++ cs2) v.
Proof.
  revert u. induction cs1 as [|x cs1 IH]; intros u; simpl; [done|].
  intros [Hu Hrest] H2. split; [done|]. destruct cs1 as [|y cs1].
  - simpl. destruct cs2 as [|z cs2]; [done|]. by exists w.
  - destruct Hrest as (w' & Hw' & Hl). simpl. exists w'. split; [done|].
    by apply IH.
Qed.

Lemma connected_chain xs u v : connected xs u v ↔ chain xs u v.
Proof.
  split.
  - intros (cs & Hall & Hl). by apply (links_chain xs cs).
  - induction 1 as [x u v Hx Hu Hv|u w v _ IH1 _ IH2].
    + exists [x]. split; [by apply Forall_singleton|done].
    + destruct IH1 as (cs1 & Hall1 & Hl1), IH2 as (cs2 & Hall2 & Hl2).
      exists (cs1 ++ cs2). split; [by apply Forall_app|].
      by apply (links_app u cs1 w).
Qed.

(** ** The loop *)

Lemma part_inv_init nv : part_inv nv (part_init nv).
Proof.
  constructor; simpl.
  - apply length_replicate.
  - intros v c. rewrite tbl_replicate. split; [done|].
    intros (l & Hl & _). by rewrite lookup_empty in Hl.
  - intros c [l Hl]. by rewrite lookup_empty in Hl.
Qed.

Lemma partition_loop_snoc nv xs x :
  partition_loop nv (xs ++ [x]) =
  partition_step (partition_loop nv xs) x.
Proof. unfold partition_loop. by rewrite foldl_snoc. Qed.

Lemma partition_loop_spec nv xs :
  Forall (vars_in_range nv) xs →
  part_inv nv (partition_loop nv xs) ∧
  ∀ u v, same_comp (table (partition_loop nv xs)) u v ↔ chain xs u v.
Proof.
  induction xs as [|x xs IH] using rev_ind; intros Hall.
  - split; [apply part_inv_init|]. intros u v. split.
    + intros (c & Hu & _). simpl in Hu. by rewrite tbl_replicate in Hu.
    + intros H. by apply chain_nil in H.
  - apply Forall_app in Hall as [Hall Hx].
    rewrite Forall_singleton in Hx. destruct (IH Hall) as [Hinv Hrel].
    rewrite partition_loop_snoc.
    destruct (partition_step_spec nv _ x Hinv Hx) as [Hinv' Hrel'].
    split; [done|]. intros u v.
    rewrite Hrel', chain_snoc, Hrel.
    by rewrite !(touched_ext _ (chain xs) x _ Hrel).
Qed.

(** ** Membership lists without repetition *)

Lemma scan_fold_newSet_eq t vs acc :
  (foldl (scan_step t) acc vs).2 =
  acc.2 ++ filter (λ v, tbl t v = None) vs.
Proof.
  revert acc. induction vs as [|v vs IH]; intros acc; simpl.
  - by rewrite app_nil_r.
  - rewrite IH. unfold scan_step. destruct (tbl t v) as [c|] eqn:E; simpl.
    + by rewrite filter_cons_False by congruence.
    + rewrite filter_cons_True by done. by rewrite <-app_assoc.
Qed.

Lemma scan_xor_newSet_NoDup t vs : NoDup vs → NoDup (scan_xor t vs).2.
Proof.
  intros Hvs. unfold scan_xor. rewrite scan_fold_newSet_eq. simpl.
  by apply NoDup_filter.
Qed.

Lemma merge_fold_NoDup cs ns (r : gmap nat (list nat)) :
  NoDup ns →
  (∀ c l, r !! c = Some l → NoDup l ∧ ∀ v, v ∈ l → v ∉ ns) →
  (∀ c1 c2 l1 l2 v, r !! c1 = Some l1 → r !! c2 = Some l2 →
                    v ∈ l1 → v ∈ l2 → c1 = c2) →
  NoDup (foldl merge_step (ns, r) cs).1.
Proof.
  revert ns r. induction cs as [|d cs IH]; intros ns r Hns Hr Hdisj; simpl.
  - done.
  - unfold merge_step at 2. cbn [fst snd]. apply IH.
    + rewrite lookup_total_alt. destruct (r !! d) as [l|] eqn:Hd; simpl.
      * destruct (Hr d l Hd) as [Hl Hfresh].
        apply NoDup_app. split; [done|]. split; [|done].
        intros v Hv Hv'. by apply (Hfresh v).
      * by rewrite app_nil_r.
    + intros c l Hc. apply lookup_delete_Some in Hc as [Hne Hc].
      destruct (Hr c l Hc) as [Hl Hfresh]. split; [done|].
      intros v Hv Hv'. apply elem_of_app in Hv' as [Hv'|Hv'].
      * by apply (Hfresh v).
      * rewrite lookup_total_alt in Hv'.
        destruct (r !! d) as [l'|] eqn:Hd; simpl in Hv'.
        -- apply Hne. symmetry. by apply (Hdisj c d l l' v).
        -- by apply elem_of_nil in Hv'.
    + intros c1 c2 l1 l2 v H1 H2.
      apply lookup_delete_Some in H1 as [_ H1].
      apply lookup_delete_Some in H2 as [_ H2]. by apply Hdisj.
Qed.

Lemma part_inv_disjoint nv st c1 c2 l1 l2 v :
  part_inv nv st →
  reverseTable st !! c1 = Some l1 → reverseTable st !! c2 = Some l2 →
  v ∈ l1 → v ∈ l2 → c1 = c2.
Proof.
  intros Hinv H1 H2 Hv1 Hv2.
  assert (tbl (table st) v = Some c1) as E1.
  { apply (inv_inverse _ _ Hinv). by exists l1. }
  assert (tbl (table st) v = Some c2) as E2.
  { apply (inv_inverse _ _ Hinv). by exists l2. }
  congruence.
Qed.

Lemma partition_step_nodup nv st x :
  part_inv nv st → part_nodup st → NoDup (vars x) →
  part_nodup (partition_step st x).
Proof.
  intros Hinv Hnd Hx. unfold partition_step.
  destruct (belong_same_matrix (table st) x); [done|]. cbv zeta.
  pose proof (scan_xor_newSet_NoDup (table st) (vars x) Hx) as Hns.
  assert (Hnew : ∀ c l v, reverseTable st !! c = Some l → v ∈ l →
                   v ∉ (scan_xor (table st) (vars x)).2).
  { intros c l v Hl Hv Hv'. apply scan_xor_newSet in Hv' as [_ Hv'].
    assert (tbl (table st) v = Some c); [|congruence].
    apply (inv_inverse _ _ Hinv). by exists l. }
  assert (Hmerge : ∀ tomerge,
    part_nodup
      {| table := assign_all (matrix_no st) (table st)
           (foldl merge_step
              ((scan_xor (table st) (vars x)).2, reverseTable st) tomerge).1;
         reverseTable := <[matrix_no st :=
           (foldl merge_step
              ((scan_xor (table st) (vars x)).2, reverseTable st) tomerge).1]>
           (foldl merge_step
              ((scan_xor (table st) (vars x)).2, reverseTable st) tomerge).2;
         matrix_no := S (matrix_no st) |}).
  { intros tomerge c l. cbn [reverseTable].
    destruct (decide (c = matrix_no st)) as [->|Hne].
    - rewrite lookup_insert_eq. intros [= <-]. apply merge_fold_NoDup.
      + done.
      + intros c l Hl. split; [by apply (Hnd c)|]. intros v.
        by apply (Hnew c l).
      + intros c1 c2 l1 l2 v. by apply (part_inv_disjoint nv).
    - rewrite lookup_insert_ne by done. rewrite merge_fold_lookup.
      case_decide; [done|]. apply Hnd. }
  destruct (scan_xor (table st) (vars x)).1 as [|into [|c2 rest]] eqn:Etm.
  - apply Hmerge.
  - rewrite absorb_fold. intros c l. cbn [reverseTable fst snd].
    rewrite lookup_alter. case_decide as Hc; [|apply Hnd]. subst c.
    destruct (reverseTable st !! into) as [l0|] eqn:Hl0; simpl; [|done].
    intros [= <-]. apply NoDup_app. split; [by apply (Hnd into)|].
    split; [|done]. intros v. by apply (Hnew into l0).
  - apply Hmerge.
Qed.

Lemma partition_loop_nodup nv xs :
  Forall (vars_in_range nv) xs → Forall (λ x, NoDup (vars x)) xs →
  part_nodup (partition_loop nv xs).
Proof.
  induction xs as [|x xs IH] using rev_ind; intros Hrange Hnd.
  - intros c l Hl. simpl in Hl. by rewrite lookup_empty in Hl.
  - apply Forall_app in Hrange as [Hrange _].
    apply Forall_app in Hnd as [Hnd Hx]. rewrite Forall_singleton in Hx.
    rewrite partition_loop_snoc. apply (partition_step_nodup nv); [|auto..].
    by apply partition_loop_spec.
Qed.

(** ** The shape evaluator *)

Lemma alter_fmap_seq {A} (f : A → A) (g : nat → A) c n :
  alter f c (g <$> seq 0 n) =
  (λ i, if decide (i = c) then f (g i) else g i) <$> seq 0 n.
Proof.
  apply list_eq. intros i.
  destruct (decide (i = c)) as [->|Hne].
  - rewrite list_lookup_alter_eq, !list_lookup_fmap.
    destruct (seq 0 n !! c) as [j|] eqn:E; simpl; [|done].
    apply lookup_seq in E as [-> _]. simpl. by rewrite decide_True.
  - rewrite list_lookup_alter_ne by done. rewrite !list_lookup_fmap.
    destruct (seq 0 n !! i) as [j|] eqn:E; simpl; [|done].
    apply lookup_seq in E as [-> _]. simpl. by rewrite decide_False.
Qed.

Lemma sum_sizes_app xs ys :
  sum_sizes (xs ++ ys) = (sum_sizes xs + sum_sizes ys)%N.
Proof.
  induction xs as [|x xs IH]; simpl; [done|]. rewrite IH. lia.
Qed.

Section shape_evaluator.
Context `{!Collaborators}.

Lemma rows_of_snoc_other p i xs x :
  ¬ (trivial x = false ∧ component_of p x = Some i) →
  rows_of p i (xs ++ [x]) = rows_of p i xs.
Proof.
  intros Hx. unfold rows_of. rewrite filter_app, filter_cons_False by done.
  by rewrite filter_nil, app_nil_r.
Qed.

Lemma rows_of_snoc_same p i xs x :
  trivial x = false → component_of p x = Some i →
  rows_of p i (xs ++ [x]) = rows_of p i xs ++ [x].
Proof.
  intros Ht Hc. unfold rows_of. rewrite filter_app, filter_cons_True by done.
  by rewrite filter_nil.
Qed.

Lemma gathered_nil p :
  gathered p [] = (init_shapes p, replicate (matrix_no p) []).
Proof.
  unfold gathered, init_shapes. f_equal.
  apply list_eq. intros i. rewrite list_lookup_fmap.
  destruct (seq 0 (matrix_no p) !! i) as [j|] eqn:E; simpl.
  - apply lookup_seq in E as [-> Hlt]. symmetry.
    by apply lookup_replicate_2.
  - symmetry. apply lookup_ge_None. rewrite length_replicate.
    apply lookup_ge_None in E. by rewrite length_seq in E.
Qed.

Lemma gather_step_gathered p xs x :
  (trivial x = false → ∃ c, component_of p x = Some c ∧ c < matrix_no p) →
  gather_step p (gathered p xs) x = Some (gathered p (xs ++ [x])).
Proof.
  intros Hx. unfold gather_step. destruct (trivial x) eqn:Ht.
  - f_equal. unfold gathered, shape_of. f_equal; apply list_fmap_ext;
      intros _ i _; (rewrite rows_of_snoc_other; [done|]);
      intros [? _]; congruence.
  - destruct (Hx eq_refl) as (c & Hc & Hlt). unfold component_of in Hc.
    destruct (head (vars x)) as [v0|] eqn:Hv0; [|done]. simpl in Hc.
    rewrite Hc. rewrite decide_True by done. f_equal.
    assert (Hcx : component_of p x = Some c).
    { unfold component_of. by rewrite Hv0. }
    unfold gathered. cbn [fst snd]. rewrite !alter_fmap_seq.
    f_equal; apply list_fmap_ext; intros _ i _; case_decide as Hi.
    + subst i. unfold shape_of, count_row; simpl.
      rewrite rows_of_snoc_same by done.
      rewrite length_app, sum_sizes_app. simpl. f_equal; lia.
    + unfold shape_of. rewrite rows_of_snoc_other; [done|].
      intros [_ H']. congruence.
    + subst i. by rewrite rows_of_snoc_same.
    + rewrite rows_of_snoc_other; [done|]. intros [_ H']. congruence.
Qed.

Lemma gather_from p done todo :
  well_placed p todo →
  foldl_opt (gather_step p) (gathered p done) todo =
  Some (gathered p (done ++ todo)).
Proof.
  revert done. induction todo as [|x todo IH]; intros done Hwp; simpl.
  - by rewrite app_nil_r.
  - apply Forall_cons in Hwp as [Hx Hwp].
    rewrite gather_step_gathered by done.
    rewrite IH by done. by rewrite <-app_assoc.
Qed.

Lemma gather_well_placed p xs :
  well_placed p xs → gather p xs = Some (gathered p xs).
Proof.
  intros Hwp. unfold gather. rewrite <-gathered_nil.
  by rewrite gather_from.
Qed.

(** The tables of the partitioning loop place every XOR it has processed. *)
Lemma partition_loop_well_placed nv xs :
  Forall (vars_in_range nv) xs → nonempty_unless_trivial xs →
  well_placed (partition_loop nv xs) xs.
Proof.
  intros Hrange Hne. destruct (partition_loop_spec nv xs Hrange) as [Hinv Hrel].
  unfold well_placed, nonempty_unless_trivial in *.
  rewrite Forall_forall in Hne. apply Forall_forall. intros x Hx Ht.
  specialize (Hne x Hx Ht). destruct (vars x) as [|v0 vs] eqn:Hvars; [done|].
  assert (chain xs v0 v0) as Hc.
  { apply (chain_xor xs x); [done|rewrite Hvars; apply list_elem_of_here..]. }
  apply Hrel in Hc as (c & Hc & _). exists c.
  unfold component_of. rewrite Hvars. simpl. split; [done|].
  apply (inv_fresh _ _ Hinv).
  apply (inv_inverse _ _ Hinv) in Hc as (l & Hl & _). by exists l.
Qed.

End shape_evaluator.

(** ** The admission loop *)

Lemma concat_snoc {A} (l : list (list A)) (x : list A) :
  concat (l ++ [x]) = concat l ++ x.
Proof. rewrite concat_app. simpl. by rewrite app_nil_r. Qed.

Lemma in_matrices_snoc gs g :
  in_matrices (gs ++ [g]) = in_matrices gs ++ matrix_xors g.
Proof.
  unfold in_matrices. rewrite fmap_app, concat_app. simpl.
  by rewrite app_nil_r.
Qed.

Section admission.
Context `{!Collaborators}.

Lemma admit_step_skip p xim st m :
  rows m = 0%N → admit_step p xim st m = st.
Proof. intros Hr. unfold admit_step. by rewrite Hr. Qed.

Lemma admit_step_accept p xim st m :
  rows m ≠ 0%N → use_matrix_of p st m = true →
  gmatrices (admit_step p xim st m).1 =
    gmatrices st.1 ++ [{| matrix_num := realMatrixNum st.2;
                          matrix_xors := xim !!! num m |}] ∧
  xorclauses (admit_step p xim st m).1 = xorclauses st.1 ∧
  realMatrixNum (admit_step p xim st m).2 = u32 (realMatrixNum st.2 + 1).
Proof.
  intros Hr Hu. unfold use_matrix_of in Hu. unfold admit_step.
  apply N.eqb_neq in Hr. rewrite Hr. cbv zeta.
  destruct (size_checks (gaussconf (conf st.1)) m).2; simpl in *;
    rewrite Hu; done.
Qed.

Lemma admit_step_reject p xim st m :
  rows m ≠ 0%N → use_matrix_of p st m = false →
  gmatrices (admit_step p xim st m).1 = gmatrices st.1 ∧
  xorclauses (admit_step p xim st m).1 = xorclauses st.1 ++ returned xim m ∧
  realMatrixNum (admit_step p xim st m).2 = realMatrixNum st.2.
Proof.
  intros Hr Hu. unfold use_matrix_of in Hu. unfold admit_step.
  apply N.eqb_neq in Hr. rewrite Hr. cbv zeta.
  destruct (size_checks (gaussconf (conf st.1)) m).2; simpl in *;
    rewrite Hu; done.
Qed.

Lemma admit_step_conf p xim st m :
  conf (admit_step p xim st m).1 = conf st.1.
Proof.
  unfold admit_step. destruct (rows m =? 0)%N; [done|]. cbv zeta.
  by case_match.
Qed.

Lemma admit_step_nVars p xim st m :
  nVars (admit_step p xim st m).1 = nVars st.1.
Proof.
  unfold admit_step. destruct (rows m =? 0)%N; [done|]. cbv zeta.
  by case_match.
Qed.

Lemma admit_step_seen p xim st m :
  seen (admit_step p xim st m).1 =
  if (rows m =? 0)%N then seen st.1
  else (ratio_sampling_block p st.1 (num m)).2.
Proof.
  unfold admit_step. destruct (rows m =? 0)%N; [done|]. cbv zeta.
  by case_match.
Qed.

Lemma admit_loop_snoc p xim s ms m :
  admit_loop p xim s (ms ++ [m]) =
  admit_step p xim (admit_loop p xim s ms) m.
Proof. unfold admit_loop. by rewrite foldl_snoc. Qed.

Lemma admit_loop_conf p xim s ms : conf (admit_loop p xim s ms).1 = conf s.
Proof.
  induction ms as [|m ms IH] using rev_ind; [done|].
  by rewrite admit_loop_snoc, admit_step_conf.
Qed.

Lemma admit_loop_nVars p xim s ms : nVars (admit_loop p xim s ms).1 = nVars s.
Proof.
  induction ms as [|m ms IH] using rev_ind; [done|].
  by rewrite admit_loop_snoc, admit_step_nVars.
Qed.

(** Later iterations only append to the matrices and to the pool. *)
Lemma admit_loop_grows p xim s pre post :
  ∃ new more,
    gmatrices (admit_loop p xim s (pre ++ post)).1 =
      gmatrices (admit_loop p xim s pre).1 ++ new ∧
    xorclauses (admit_loop p xim s (pre ++ post)).1 =
      xorclauses (admit_loop p xim s pre).1 ++ more.
Proof.
  induction post as [|m post IH] using rev_ind.
  - exists [], []. by rewrite !app_nil_r.
  - destruct IH as (new & more & Hg & Hx).
    rewrite app_assoc, admit_loop_snoc.
    set (st := admit_loop p xim s (pre ++ post)) in *.
    destruct (decide (rows m = 0%N)) as [Hr|Hr].
    + rewrite admit_step_skip by done. by exists new, more.
    + destruct (use_matrix_of p st m) eqn:Hu.
      * destruct (admit_step_accept p xim st m Hr Hu) as (-> & -> & _).
        eexists _, more. rewrite Hg, <-app_assoc. done.
      * destruct (admit_step_reject p xim st m Hr Hu) as (-> & -> & _).
        eexists new, _. rewrite Hx, <-app_assoc. done.
Qed.

(** Every XOR of the components processed so far is in a new matrix, or
    tagged in the pool, and nowhere else. *)
Lemma admit_loop_conserves p xim s ms :
  Forall (λ m, rows m = 0%N → xim !!! num m = []) ms →
  ∃ new rej,
    gmatrices (admit_loop p xim s ms).1 = gmatrices s ++ new ∧
    xorclauses (admit_loop p xim s ms).1 =
      xorclauses s ++ (set_in_matrix not_in_matrix <$> rej) ∧
    in_matrices new ++ rej ≡ₚ concat ((λ m, xim !!! num m) <$> ms).
Proof.
  induction ms as [|m ms IH] using rev_ind; intros Hall.
  - exists [], []. simpl. by rewrite !app_nil_r.
  - apply Forall_app in Hall as [Hall Hm]. rewrite Forall_singleton in Hm.
    destruct (IH Hall) as (new & rej & Hg & Hx & Hperm).
    rewrite admit_loop_snoc, fmap_app. simpl. rewrite concat_snoc.
    set (st := admit_loop p xim s ms) in *.
    destruct (decide (rows m = 0%N)) as [Hr|Hr].
    + rewrite admit_step_skip by done. exists new, rej.
      rewrite (Hm Hr), app_nil_r. done.
    + destruct (use_matrix_of p st m) eqn:Hu.
      * destruct (admit_step_accept p xim st m Hr Hu) as (Hg' & Hx' & _).
        exists (new ++ [{| matrix_num := realMatrixNum st.2;
                           matrix_xors := xim !!! num m |}]), rej.
        rewrite Hg', Hx', Hg, Hx, in_matrices_snoc, <-app_assoc. simpl.
        split; [done|]. split; [done|].
        rewrite <-Hperm, <-!app_assoc. f_equiv. apply Permutation_app_comm.
      * destruct (admit_step_reject p xim st m Hr Hu) as (Hg' & Hx' & _).
        exists new, (rej ++ xim !!! num m).
        rewrite Hg', Hx', Hg, Hx. unfold returned.
        rewrite fmap_app, <-!app_assoc. split; [done|]. split; [done|].
        by rewrite <-Hperm, <-!app_assoc.
Qed.

End admission.

(** ** The sampling ratio *)

Lemma mark_seen_snoc b sn l v :
  mark_seen b sn (l ++ [v]) = <[v := b]> (mark_seen b sn l).
Proof. unfold mark_seen. by rewrite foldl_snoc. Qed.

Lemma length_mark_seen b sn l : length (mark_seen b sn l) = length sn.
Proof.
  induction l as [|v l IH] using rev_ind; [done|].
  by rewrite mark_seen_snoc, length_insert.
Qed.

Lemma lookup_mark_seen_in b sn l v :
  v ∈ l → v < length sn → mark_seen b sn l !! v = Some b.
Proof.
  induction l as [|w l IH] using rev_ind; intros Hv Hlt.
  - by apply elem_of_nil in Hv.
  - rewrite mark_seen_snoc. destruct (decide (w = v)) as [->|Hne].
    + apply list_lookup_insert_eq. by rewrite length_mark_seen.
    + rewrite list_lookup_insert_ne by done. apply IH; [|done].
      apply elem_of_app in Hv as [Hv|Hv]; [done|].
      apply list_elem_of_singleton in Hv. congruence.
Qed.

Lemma lookup_mark_seen_notin b sn l v :
  v ∉ l → mark_seen b sn l !! v = sn !! v.
Proof.
  induction l as [|w l IH] using rev_ind; intros Hv; [done|].
  rewrite mark_seen_snoc. apply not_elem_of_app in Hv as [Hv Hw].
  rewrite list_lookup_insert_ne; [by apply IH|].
  intros ->. apply Hw, list_elem_of_here.
Qed.

Lemma seen_clear_lookup sn v : seen_clear sn → v < length sn → sn !! v = Some false.
Proof.
  intros Hc Hlt. destruct (lookup_lt_is_Some_2 sn v Hlt) as [b Hb].
  unfold seen_clear in Hc. rewrite Forall_forall in Hc.
  rewrite Hb. f_equal. apply Hc. by eapply list_elem_of_lookup_2.
Qed.

(** Clearing the marks gives back a clear array. *)
Lemma mark_seen_restore sn l :
  seen_clear sn → mark_seen false (mark_seen true sn l) l = sn.
Proof.
  intros Hc. apply list_eq. intros v.
  destruct (decide (v ∈ l)) as [Hin|Hnin].
  - destruct (decide (v < length sn)) as [Hlt|Hge].
    + rewrite lookup_mark_seen_in; [|done|by rewrite length_mark_seen].
      symmetry. by apply seen_clear_lookup.
    + rewrite !(lookup_ge_None_2 _ v); [done|lia|].
      rewrite !length_mark_seen. lia.
  - by rewrite !lookup_mark_seen_notin.
Qed.

(** While the marks are set, [seen] tells membership. *)
Lemma marked_iff_member nv sn l v :
  seen_clear sn → nv ≤ length sn → Forall (λ w, w < nv) l →
  bool_decide (v < nv) && default false (mark_seen true sn l !! v) = true ↔
  v ∈ l.
Proof.
  intros Hc Hlen Hl. rewrite Forall_forall in Hl.
  rewrite andb_true_iff, bool_decide_eq_true. split.
  - intros [Hlt Hs]. destruct (decide (v ∈ l)) as [|Hnin]; [done|].
    rewrite lookup_mark_seen_notin in Hs by done.
    rewrite seen_clear_lookup in Hs; [done|done|lia].
  - intros Hv. pose proof (Hl _ Hv). split; [done|].
    rewrite lookup_mark_seen_in; [done|done|lia].
Qed.

Lemma u32_small n : (n < 2 ^ 32)%N → u32 n = n.
Proof. intros. unfold u32. by apply N.mod_small. Qed.

Section sampling_ratio.
Context `{!Collaborators}.

Lemma sampling_fold nv sn members sv a b :
  (∀ v, bool_decide (v < nv) && default false (sn !! v) = true ↔
        v ∈ members) →
  (a + N.of_nat (length sv) < 2 ^ 32)%N → (b ≤ a)%N →
  foldl (sampling_step nv sn) (a, b) sv =
  ((a + N.of_nat (length sv))%N,
   (b + N.of_nat (length (covered members sv)))%N).
Proof.
  intros Hmem. revert a b.
  induction sv as [|ov sv IH]; intros a b Hlt Hle; simpl.
  - f_equal; lia.
  - simpl in Hlt. unfold sampling_step at 2. cbv zeta. cbn [fst snd].
    fold (resolve ov). rewrite (u32_small (a + 1)) by lia.
    unfold covered in *.
    destruct (lbool_defined (value (resolve ov))) eqn:Hv.
    + rewrite (u32_small (b + 1)) by lia. rewrite IH by lia.
      rewrite filter_cons_True by (by left). simpl. f_equal; lia.
    + destruct (bool_decide (resolve ov < nv) &&
                default false (sn !! resolve ov)) eqn:Hs.
      * rewrite (u32_small (b + 1)) by lia. rewrite IH by lia.
        rewrite filter_cons_True by (right; by apply Hmem).
        simpl. f_equal; lia.
      * rewrite IH by lia. rewrite filter_cons_False; [f_equal; lia|].
        intros [?|Hin]; [congruence|]. apply Hmem in Hin. congruence.
Qed.

Lemma calc_ratio_sampling_spec s members sv :
  seen_clear (seen s) → nVars s ≤ length (seen s) →
  Forall (λ v, v < nVars s) members →
  (N.of_nat (length sv) < 2 ^ 32)%N →
  calc_ratio_sampling s members sv =
  ((to_double (N.of_nat (length (covered members sv))) /
    to_double (N.of_nat (length sv)))%float,
   seen s).
Proof.
  intros Hc Hlen Hm Hsv. unfold calc_ratio_sampling. cbv zeta.
  rewrite (sampling_fold _ _ members) by
    (try lia; intros v; by apply marked_iff_member).
  cbn [fst snd]. rewrite !N.add_0_l. by rewrite mark_seen_restore.
Qed.

Lemma ratio_sampling_block_seen p s i :
  seen_clear (seen s) → (ratio_sampling_block p s i).2 = seen s.
Proof.
  intros Hc. unfold ratio_sampling_block.
  destruct (sampling_vars (conf s)); [|done].
  unfold calc_ratio_sampling. cbv zeta. cbn [snd].
  by apply mark_seen_restore.
Qed.

Lemma admit_loop_seen p xim s ms :
  seen_clear (seen s) → seen (admit_loop p xim s ms).1 = seen s.
Proof.
  intros Hc. induction ms as [|m ms IH] using rev_ind; [done|].
  rewrite admit_loop_snoc, admit_step_seen.
  destruct (rows m =? 0)%N; [done|].
  rewrite ratio_sampling_block_seen; [done|]. by rewrite IH.
Qed.

End sampling_ratio.

Lemma part_inv_members nv p i :
  part_inv nv p → Forall (λ v, v < nv) (reverseTable p !!! i).
Proof.
  intros Hinv. apply Forall_forall. intros v Hv.
  rewrite lookup_total_alt in Hv.
  destruct (reverseTable p !! i) as [l|] eqn:Hl; simpl in Hv.
  - rewrite <-(inv_length _ _ Hinv). apply (tbl_Some_lt _ _ i).
    apply (inv_inverse _ _ Hinv). by exists l.
  - by apply elem_of_nil in Hv.
Qed.

Lemma part_inv_members_iff nv p i v :
  part_inv nv p → v ∈ reverseTable p !!! i ↔ tbl (table p) v = Some i.
Proof.
  intros Hinv. rewrite (inv_inverse _ _ Hinv), lookup_total_alt.
  destruct (reverseTable p !! i) as [l|]; simpl.
  - split; [by exists l|]. by intros (l' & [= <-] & ?).
  - split; [by intros ?%elem_of_nil|]. by intros (l' & [=] & _).
Qed.

Lemma part_nodup_total p i : part_nodup p → NoDup (reverseTable p !!! i).
Proof.
  intros Hnd. rewrite lookup_total_alt.
  destruct (reverseTable p !! i) as [l|] eqn:Hl; simpl.
  - by apply (Hnd i).
  - apply NoDup_nil_2.
Qed.

(** ** The whole of [setup_matrices_attach_remaining_cls] *)

Lemma concat_alter_snoc {A} (l : list (list A)) (c : nat) (x : A) :
  c < length l → concat (alter (λ r, r ++ [x]) c l) ≡ₚ concat l ++ [x].
Proof.
  revert c. induction l as [|y l IH]; intros c Hc; simpl in *; [lia|].
  destruct c as [|c]; simpl.
  - rewrite <-!app_assoc. f_equiv. apply Permutation_app_comm.
  - change (list_alter ?f c l) with (alter f c l).
    rewrite IH by lia. by rewrite app_assoc.
Qed.

Lemma num_compute_density m : num (compute_density m) = num m.
Proof. unfold compute_density. by case_match. Qed.

Lemma rows_compute_density m : rows (compute_density m) = rows m.
Proof. unfold compute_density. by case_match. Qed.

Lemma cols_compute_density m : cols (compute_density m) = cols m.
Proof. unfold compute_density. by case_match. Qed.

Lemma sum_compute_density m :
  sum_xor_sizes (compute_density m) = sum_xor_sizes m.
Proof. unfold compute_density. by case_match. Qed.

Lemma raise_max_matrix_rows_Some c :
  (∀ sv, sampling_vars c = Some sv → (3 * N.of_nat (length sv) < 2 ^ 32)%N) →
  ∃ c', raise_max_matrix_rows c = Some c' ∧
        sampling_vars c' = sampling_vars c.
Proof.
  intros Hsv. unfold raise_max_matrix_rows.
  destruct (sampling_vars c) as [sv|] eqn:E; [|by exists c].
  specialize (Hsv sv eq_refl). cbv zeta.
  destruct (N.leb_spec (2 ^ 32) (3 * N.of_nat (length sv))) as [?|_]; [lia|].
  case_match; eexists; (split; [done|]); simpl; done.
Qed.

Section setup.
Context `{!Collaborators}.

Lemma gathered_bucket p xs i :
  i < matrix_no p → (gathered p xs).2 !!! i = rows_of p i xs.
Proof.
  intros Hi. unfold gathered. cbn [snd]. apply list_lookup_total_correct.
  rewrite list_lookup_fmap, lookup_seq_lt by done. done.
Qed.

Lemma gathered_shape p xs i :
  i < matrix_no p → (gathered p xs).1 !! i = Some (shape_of p xs i).
Proof.
  intros Hi. unfold gathered. cbn [fst].
  rewrite list_lookup_fmap, lookup_seq_lt by done. done.
Qed.

Lemma gathered_buckets_snoc p xs x c :
  trivial x = false → component_of p x = Some c → c < matrix_no p →
  (gathered p (xs ++ [x])).2 = alter (λ l, l ++ [x]) c (gathered p xs).2.
Proof.
  intros Ht Hc Hlt. unfold gathered. cbn [snd]. rewrite alter_fmap_seq.
  apply list_fmap_ext. intros _ i _. case_decide as Hi.
  - subst i. by apply rows_of_snoc_same.
  - apply rows_of_snoc_other. intros [_ H']. congruence.
Qed.

Lemma gathered_buckets_trivial p xs x :
  trivial x = true → (gathered p (xs ++ [x])).2 = (gathered p xs).2.
Proof.
  intros Ht. unfold gathered. cbn [snd]. apply list_fmap_ext. intros _ i _.
  apply rows_of_snoc_other. intros [? _]. congruence.
Qed.

(** Filing loses and duplicates nothing. *)
Lemma gathered_conserves p xs :
  well_placed p xs → concat (gathered p xs).2 ≡ₚ nontrivial xs.
Proof.
  induction xs as [|x xs IH] using rev_ind; intros Hwp.
  - unfold gathered. cbn [snd]. change (nontrivial []) with (@nil Xor).
    induction (seq 0 (matrix_no p)) as [|i l IHl]; [done|].
    by simpl.
  - apply Forall_app in Hwp as [Hwp Hx]. rewrite Forall_singleton in Hx.
    unfold nontrivial in *. rewrite filter_app.
    destruct (trivial x) eqn:Ht.
    + rewrite gathered_buckets_trivial by done.
      rewrite filter_cons_False by congruence.
      rewrite filter_nil, app_nil_r. by apply IH.
    + destruct (Hx eq_refl) as (c & Hc & Hlt).
      rewrite (gathered_buckets_snoc p xs x c) by done.
      rewrite concat_alter_snoc.
      * rewrite filter_cons_True by done. rewrite filter_nil.
        by rewrite IH.
      * unfold gathered. cbn [snd]. by rewrite length_fmap, length_seq.
Qed.

Lemma gathered_recover p xs :
  (λ m, (gathered p xs).2 !!! num m) <$> (compute_density <$> (gathered p xs).1)
  = (gathered p xs).2.
Proof.
  apply list_eq. intros i. rewrite !list_lookup_fmap.
  destruct (decide (i < matrix_no p)) as [Hlt|Hge].
  - rewrite gathered_shape by done. simpl. rewrite num_compute_density.
    simpl. rewrite list_lookup_fmap, lookup_seq_lt by done. simpl. f_equal.
    apply list_lookup_total_correct.
    by rewrite list_lookup_fmap, lookup_seq_lt.
  - unfold gathered. cbn [fst snd].
    by rewrite !list_lookup_fmap, lookup_seq_ge by lia.
Qed.

Lemma gathered_rows_zero p xs m :
  m ∈ compute_density <$> (gathered p xs).1 →
  rows m = 0%N → (gathered p xs).2 !!! num m = [].
Proof.
  intros Hm Hr. apply list_elem_of_fmap in Hm as (m0 & -> & Hm0).
  unfold gathered in Hm0. cbn [fst] in Hm0.
  apply list_elem_of_fmap in Hm0 as (i & -> & Hi).
  apply elem_of_seq in Hi as [_ Hi]. simpl in Hi.
  rewrite num_compute_density. cbn [num shape_of].
  rewrite gathered_bucket by done.
  rewrite rows_compute_density in Hr. simpl in Hr.
  apply length_zero_iff_nil. lia.
Qed.

(** In every shape the filing loop produces, [rows] counts the XORs filed
    under the component. *)
Lemma gathered_rows_count p xs m :
  m ∈ compute_density <$> (gathered p xs).1 →
  rows m = N.of_nat (length ((gathered p xs).2 !!! num m)).
Proof.
  intros Hm. apply list_elem_of_fmap in Hm as (m0 & -> & Hm0).
  unfold gathered in Hm0. cbn [fst] in Hm0.
  apply list_elem_of_fmap in Hm0 as (i & -> & Hi).
  apply elem_of_seq in Hi as [_ Hi]. simpl in Hi.
  rewrite num_compute_density, rows_compute_density. cbn [num rows shape_of].
  by rewrite gathered_bucket.
Qed.

(** The routine returns; the new matrices and the pool it leaves hold the
    non-trivial XORs it was given, each once. *)
Lemma setup_conserves p s :
  well_placed p (xorclauses s) →
  (∀ sv, sampling_vars (conf s) = Some sv →
         (3 * N.of_nat (length sv) < 2 ^ 32)%N) →
  ∃ r new rej,
    setup_matrices_attach_remaining_cls p s = Some r ∧
    gmatrices r.1 = gmatrices s ++ new ∧
    xorclauses r.1 = set_in_matrix not_in_matrix <$> rej ∧
    nontrivial (xorclauses s) ≡ₚ in_matrices new ++ rej.
Proof.
  intros Hwp Hsv. unfold setup_matrices_attach_remaining_cls.
  destruct (raise_max_matrix_rows_Some _ Hsv) as (c' & -> & _). cbv zeta.
  cbn [xorclauses set_conf]. rewrite gather_well_placed by done.
  set (g := gathered p (xorclauses s)).
  set (ms := reverse (sort_shapes (compute_density <$> g.1))).
  set (s0 := set_xorclauses [] (set_conf c' s)).
  assert (Hms : ms ≡ₚ compute_density <$> g.1).
  { unfold ms. by rewrite reverse_Permutation, sort_shapes_perm. }
  destruct (admit_loop_conserves p g.2 s0 ms) as (new & rej & Hg & Hx & Hp).
  { apply Forall_forall. intros m Hm. apply gathered_rows_zero.
    fold g. by rewrite <-Hms. }
  eexists _, new, rej. split; [done|]. cbn [fst gmatrices xorclauses
    attach_xorclauses]. rewrite Hg, Hx. split; [done|]. split; [done|].
  rewrite Hp, Hms. unfold g. rewrite gathered_recover.
  symmetry. by apply gathered_conserves.
Qed.

End setup.

(** * The claims *)

(** ** The partitioner *)

Lemma chain_perm xs xs' u v : xs' ≡ₚ xs → chain xs' u v ↔ chain xs u v.
Proof.
  intros Hp. split; apply chain_mono; intros x Hx.
  - by rewrite <-Hp.
  - by rewrite Hp.
Qed.

(** C1.  When the partitioning loop of [find_matrices] has processed the
    XORs [xs], two variables are mapped to the same component exactly when
    a chain of constraints of [xs], each sharing a variable with the next,
    connects them; and processing the constraints in another order gives
    the same partition.  (The variables must be variables of the solver:
    indexing [table] out of range is undefined in the source.) *)
Theorem partition_is_connectivity nv xs :
  Forall (vars_in_range nv) xs →
  (∀ u v, same_comp (table (partition_loop nv xs)) u v ↔ connected xs u v) ∧
  (∀ xs', xs' ≡ₚ xs → ∀ u v,
     same_comp (table (partition_loop nv xs')) u v ↔
     same_comp (table (partition_loop nv xs)) u v).
Proof.
  intros Hrange.
  destruct (partition_loop_spec nv xs Hrange) as [_ Hrel]. split.
  - intros u v. by rewrite connected_chain.
  - intros xs' Hp u v.
    assert (Hrange' : Forall (vars_in_range nv) xs') by by rewrite Hp.
    destruct (partition_loop_spec nv xs' Hrange') as [_ Hrel'].
    by rewrite Hrel, Hrel', (chain_perm xs xs').
Qed.

Lemma partition_is_connectivity_witness :
  Forall (vars_in_range 6) demo_xors ∧
  ((∀ u v, same_comp (table (partition_loop 6 demo_xors)) u v ↔
           connected demo_xors u v) ∧
   (∀ xs', xs' ≡ₚ demo_xors → ∀ u v,
      same_comp (table (partition_loop 6 xs')) u v ↔
      same_comp (table (partition_loop 6 demo_xors)) u v)).
Proof.
  assert (H : Forall (vars_in_range 6) demo_xors).
  { unfold vars_in_range, demo_xors. simpl. repeat constructor; lia. }
  split; [exact H|exact (partition_is_connectivity 6 demo_xors H)].
Defined.

(** C9.  After each constraint the loop has processed, [table] and
    [reverseTable] are inverse to each other: [table[v]] is the defined
    component [c] exactly when [v] occurs in [reverseTable[c]]; hence no
    variable occurs in the membership lists of two live components. *)
Theorem tables_mutually_inverse nv xs k :
  Forall (vars_in_range nv) xs →
  let st := partition_loop nv (take k xs) in
  (∀ v c, tbl (table st) v = Some c ↔
          ∃ l, reverseTable st !! c = Some l ∧ v ∈ l) ∧
  (∀ v c1 c2 l1 l2,
     reverseTable st !! c1 = Some l1 → reverseTable st !! c2 = Some l2 →
     v ∈ l1 → v ∈ l2 → c1 = c2).
Proof.
  intros Hrange st.
  destruct (partition_loop_spec nv (take k xs)) as [Hinv _].
  { by apply Forall_take. }
  fold st in Hinv. split; [apply Hinv|].
  intros v c1 c2 l1 l2 H1 H2 Hv1 Hv2.
  assert (tbl (table st) v = Some c1) as E1.
  { apply (inv_inverse _ _ Hinv). by exists l1. }
  assert (tbl (table st) v = Some c2) as E2.
  { apply (inv_inverse _ _ Hinv). by exists l2. }
  congruence.
Qed.

Lemma tables_mutually_inverse_witness :
  Forall (vars_in_range 6) demo_xors ∧
  ((∀ v c, tbl (table (partition_loop 6 (take 2 demo_xors))) v = Some c ↔
           ∃ l, reverseTable (partition_loop 6 (take 2 demo_xors)) !! c
                = Some l ∧ v ∈ l) ∧
   (∀ v c1 c2 l1 l2,
      reverseTable (partition_loop 6 (take 2 demo_xors)) !! c1 = Some l1 →
      reverseTable (partition_loop 6 (take 2 demo_xors)) !! c2 = Some l2 →
      v ∈ l1 → v ∈ l2 → c1 = c2)).
Proof.
  assert (H : Forall (vars_in_range 6) demo_xors).
  { unfold vars_in_range, demo_xors. simpl. repeat constructor; lia. }
  split; [exact H|exact (tables_mutually_inverse 6 demo_xors 2 H)].
Defined.

(** ** The shape evaluator *)

Section shape_claim.
Context `{!Collaborators}.

(** C8.  For the tables [p] that the partitioning loop leaves, the filing
    loop returns, and the shape record of every component [i], as it stands
    before the sort and the admission loop, has: [rows] the number of
    non-trivial XORs whose first variable maps to [i]; [cols] the size of
    [reverseTable[i]], which lists the variables mapped to [i] (each once
    when no XOR repeats a variable); [sum_xor_sizes] the sum of the sizes of
    those XORs; [density] the quotient of [sum_xor_sizes] by [rows * cols]
    when that product is not zero, and 0 otherwise. *)
Theorem shape_record nv xs :
  Forall (vars_in_range nv) xs → nonempty_unless_trivial xs →
  let p := partition_loop nv xs in
  ∃ shapes xim,
    gather p xs = Some (shapes, xim) ∧
    ∀ i, i < matrix_no p →
      ∃ m, (compute_density <$> shapes) !! i = Some m ∧
        num m = i ∧
        rows m = N.of_nat (length (rows_of p i xs)) ∧
        cols m = N.of_nat (length (reverseTable p !!! i)) ∧
        (∀ v, v ∈ reverseTable p !!! i ↔ tbl (table p) v = Some i) ∧
        (Forall (λ x, NoDup (vars x)) xs → NoDup (reverseTable p !!! i)) ∧
        sum_xor_sizes m = sum_sizes (rows_of p i xs) ∧
        density m =
          if (rows m * cols m =? 0)%N then 0%float
          else (to_double (sum_xor_sizes m) /
                to_double (rows m * cols m))%float.
Proof.
  intros Hrange Hne p.
  pose proof (partition_loop_well_placed nv xs Hrange Hne) as Hwp.
  destruct (partition_loop_spec nv xs Hrange) as [Hinv _].
  fold p in Hwp, Hinv. exists (gathered p xs).1, (gathered p xs).2.
  split; [by rewrite gather_well_placed|].
  intros i Hi. exists (compute_density (shape_of p xs i)).
  rewrite list_lookup_fmap, gathered_shape by done.
  split; [done|].
  rewrite num_compute_density, rows_compute_density, cols_compute_density,
    sum_compute_density.
  repeat (split; [done|]).
  split; [intros v; by apply (part_inv_members_iff nv)|].
  split.
  { intros Hnd. by apply part_nodup_total, partition_loop_nodup. }
  split; [done|].
  unfold compute_density, tot_size.
  destruct (N.ltb_spec 0 (rows (shape_of p xs i) * cols (shape_of p xs i)))
    as [Hpos|Hzero].
  - rewrite (proj2 (N.eqb_neq _ _)) by lia. done.
  - rewrite (proj2 (N.eqb_eq _ _)) by lia. done.
Qed.

End shape_claim.

Lemma demo_nonempty_unless_trivial together_ok :
  @nonempty_unless_trivial (demo_collaborators together_ok) demo_xors.
Proof.
  unfold nonempty_unless_trivial, demo_xors.
  repeat constructor; simpl; intros; done.
Defined.

Lemma demo_vars_in_range : Forall (vars_in_range 6) demo_xors.
Proof.
  unfold vars_in_range, demo_xors. simpl. repeat constructor; lia.
Defined.

Lemma shape_record_witness :
  Forall (vars_in_range 6) demo_xors ∧
  @nonempty_unless_trivial (demo_collaborators true) demo_xors ∧
  ∃ shapes xim,
    @gather (demo_collaborators true) (partition_loop 6 demo_xors) demo_xors
      = Some (shapes, xim) ∧
    ∀ i, i < matrix_no (partition_loop 6 demo_xors) →
      ∃ m, (compute_density <$> shapes) !! i = Some m ∧
        num m = i ∧
        rows m = N.of_nat (length (@rows_of (demo_collaborators true)
                             (partition_loop 6 demo_xors) i demo_xors)) ∧
        cols m = N.of_nat (length
                   (reverseTable (partition_loop 6 demo_xors) !!! i)) ∧
        (∀ v, v ∈ reverseTable (partition_loop 6 demo_xors) !!! i ↔
              tbl (table (partition_loop 6 demo_xors)) v = Some i) ∧
        (Forall (λ x, NoDup (vars x)) demo_xors →
         NoDup (reverseTable (partition_loop 6 demo_xors) !!! i)) ∧
        sum_xor_sizes m = sum_sizes (@rows_of (demo_collaborators true)
                             (partition_loop 6 demo_xors) i demo_xors) ∧
        density m =
          if (rows m * cols m =? 0)%N then 0%float
          else (to_double (sum_xor_sizes m) /
                to_double (rows m * cols m))%float.
Proof.
  split; [exact demo_vars_in_range|].
  split; [exact (demo_nonempty_unless_trivial true)|].
  exact (@shape_record (demo_collaborators true) 6 demo_xors
           demo_vars_in_range (demo_nonempty_unless_trivial true)).
Defined.

(** ** The admission policy *)

Section admission_claims.
Context `{!Collaborators}.

Lemma size_checks_oversized gc m :
  (max_matrix_rows gc < rows m ∨ max_matrix_columns gc < cols m)%N →
  size_checks gc m = (false, false).
Proof.
  intros Hover. unfold size_checks. cbv zeta. simpl.
  destruct (N.ltb_spec (max_matrix_rows gc) (rows m)); [done|].
  destruct (N.ltb_spec (max_matrix_columns gc) (cols m)); [done|lia].
Qed.

(** C3.  In the iteration of the admission loop for a component with
    [rows > min_matrix_rows], when sampling variables are configured, the
    component is accepted exactly when [ratio_sampling >= 0.6], whatever
    its rows, its columns and the number of matrices already made: if the
    test holds a matrix is built from its XORs, and if not its XORs go to
    the pool. *)
Theorem sampling_override p xim s pre m sv :
  sampling_vars (conf s) = Some sv →
  (min_matrix_rows (gaussconf (conf s)) < rows m)%N →
  let st := admit_loop p xim s pre in
  let st' := admit_loop p xim s (pre ++ [m]) in
  let ratio_sampling := (ratio_sampling_block p st.1 (num m)).1 in
  if (0.6 <=? ratio_sampling)%float
  then gmatrices st'.1 =
         gmatrices st.1 ++ [{| matrix_num := realMatrixNum st.2;
                               matrix_xors := xim !!! num m |}] ∧
       xorclauses st'.1 = xorclauses st.1
  else gmatrices st'.1 = gmatrices st.1 ∧
       xorclauses st'.1 = xorclauses st.1 ++ returned xim m.
Proof.
  intros Hsv Hrows st st' ratio_sampling. unfold st'.
  rewrite admit_loop_snoc. fold st.
  assert (Hr : rows m ≠ 0%N) by lia.
  assert (Hu : use_matrix_of p st m = (0.6 <=? ratio_sampling)%float).
  { unfold use_matrix_of, final_decision. cbv zeta. unfold st at 1 2 3 4.
    rewrite !admit_loop_conf, Hsv.
    rewrite (proj2 (N.ltb_lt _ _) Hrows).
    rewrite bool_decide_eq_true_2 by eauto.
    fold st. fold ratio_sampling. by destruct (0.6 <=? ratio_sampling)%float. }
  destruct (0.6 <=? ratio_sampling)%float.
  - destruct (admit_step_accept p xim st m Hr Hu) as (? & ? & _). done.
  - destruct (admit_step_reject p xim st m Hr Hu) as (? & ? & _). done.
Qed.

(** C4.  When no sampling variables are configured the thresholds stay as
    configured, and in the iteration of the admission loop for a component
    with [rows > max_matrix_rows] or [cols > max_matrix_columns] no matrix
    is built and the XORs of the component go to the pool, whatever its
    density and the rest of its shape.  ([rows] counts the XORs filed under
    the component, as [gathered_rows_count] shows for the shapes of a run.) *)
Theorem oversized_rejected p xim s pre m :
  sampling_vars (conf s) = None →
  (max_matrix_rows (gaussconf (conf s)) < rows m ∨
   max_matrix_columns (gaussconf (conf s)) < cols m)%N →
  rows m = N.of_nat (length (xim !!! num m)) →
  let st := admit_loop p xim s pre in
  let st' := admit_loop p xim s (pre ++ [m]) in
  raise_max_matrix_rows (conf s) = Some (conf s) ∧
  gmatrices st'.1 = gmatrices st.1 ∧
  realMatrixNum st'.2 = realMatrixNum st.2 ∧
  xorclauses st'.1 = xorclauses st.1 ++ returned xim m.
Proof.
  intros Hsv Hover Hcount st st'. unfold st'.
  rewrite admit_loop_snoc. fold st.
  split; [unfold raise_max_matrix_rows; by rewrite Hsv|].
  destruct (decide (rows m = 0%N)) as [Hr|Hr].
  - rewrite admit_step_skip by done.
    assert (xim !!! num m = []) as Hnil.
    { apply length_zero_iff_nil. lia. }
    unfold returned. rewrite Hnil. simpl. by rewrite app_nil_r.
  - assert (Hu : use_matrix_of p st m = false).
    { unfold use_matrix_of, final_decision. cbv zeta. unfold st.
      rewrite !admit_loop_conf, Hsv, size_checks_oversized by done.
      simpl. by case_match. }
    destruct (admit_step_reject p xim st m Hr Hu) as (? & ? & ?). done.
Qed.

(** C7.  Whenever the admission loop computes [ratio_sampling] for a
    component, it is the quotient of two counts converted to [double]: the
    number of sampling variables that, once resolved to an internal
    variable, are assigned or belong to the component, and the number of
    all sampling variables.  (The [seen] array is clear on entry and covers
    the variables, the members of the component are variables of the
    solver, and the counters do not wrap.) *)
Theorem ratio_sampling_value p xim s pre i sv :
  seen_clear (seen s) → nVars s ≤ length (seen s) →
  Forall (λ v, v < nVars s) (reverseTable p !!! i) →
  sampling_vars (conf s) = Some sv →
  (N.of_nat (length sv) < 2 ^ 32)%N →
  (ratio_sampling_block p (admit_loop p xim s pre).1 i).1 =
  (to_double (N.of_nat (length (covered (reverseTable p !!! i) sv))) /
   to_double (N.of_nat (length sv)))%float.
Proof.
  intros Hc Hlen Hm Hsv Hn. unfold ratio_sampling_block.
  rewrite admit_loop_conf, Hsv.
  rewrite calc_ratio_sampling_spec; [done| | | |done].
  - by rewrite admit_loop_seen.
  - by rewrite admit_loop_seen, admit_loop_nVars.
  - by rewrite admit_loop_nVars.
Qed.

Lemma use_matrix_few_rows p st m :
  (rows m ≤ min_matrix_rows (gaussconf (conf st.1)))%N →
  use_matrix_of p st m =
  fits_thresholds (gaussconf (conf st.1)) (realMatrixNum st.2) m.
Proof.
  intros Hmin. unfold use_matrix_of, final_decision, size_checks,
    fits_thresholds. cbv zeta. cbn [fst snd andb].
  set (gc := gaussconf (conf st.1)) in *.
  destruct (N.ltb_spec (min_matrix_rows gc) (rows m)); [lia|].
  destruct (N.ltb_spec (max_matrix_rows gc) (rows m)),
    (N.leb_spec (rows m) (max_matrix_rows gc)); try lia;
  destruct (N.ltb_spec (max_matrix_columns gc) (cols m)),
    (N.leb_spec (cols m) (max_matrix_columns gc)); try lia;
  destruct (N.ltb_spec (rows m) (min_matrix_rows gc)),
    (N.leb_spec (min_matrix_rows gc) (rows m)); try lia;
  destruct (N.leb_spec (max_num_matrices gc) (realMatrixNum st.2)),
    (N.ltb_spec (realMatrixNum st.2) (max_num_matrices gc)); try lia;
  simpl; done.
Qed.

(** C10.  With sampling variables configured and [max_matrix_rows] below
    three times their number, the routine is the admission loop run from a
    solver whose [max_matrix_rows] is already three times their number, over
    the sorted shapes.  So every admission decision is made under the
    raised value: each iteration finds it in the configuration, and a
    component with rows but no more than [min_matrix_rows] of them, the
    ones the sampling ratio does not decide, gets its matrix exactly when
    it fits the thresholds with the raised [max_matrix_rows].  The solver
    the routine returns has the raised value, and nothing else of the
    configuration changed. *)
Theorem max_matrix_rows_raised p s sv :
  sampling_vars (conf s) = Some sv →
  (max_matrix_rows (gaussconf (conf s)) < 3 * N.of_nat (length sv))%N →
  (3 * N.of_nat (length sv) < 2 ^ 32)%N →
  well_placed p (xorclauses s) →
  let raised := set_max_matrix_rows (3 * N.of_nat (length sv)) (conf s) in
  let xim := (gathered p (xorclauses s)).2 in
  let s0 := set_xorclauses [] (set_conf raised s) in
  let ms :=
    reverse (sort_shapes (compute_density <$> (gathered p (xorclauses s)).1))
  in
  setup_matrices_attach_remaining_cls p s =
    Some (attach_xorclauses (admit_loop p xim s0 ms).1,
          realMatrixNum (admit_loop p xim s0 ms).2) ∧
  (∀ pre m post, ms = pre ++ m :: post →
     let st := admit_loop p xim s0 pre in
     let st' := admit_loop p xim s0 (pre ++ [m]) in
     conf st.1 = raised ∧
     (rows m ≠ 0%N →
      (rows m ≤ min_matrix_rows (gaussconf (conf s)))%N →
      if fits_thresholds (gaussconf raised) (realMatrixNum st.2) m
      then gmatrices st'.1 =
             gmatrices st.1 ++ [{| matrix_num := realMatrixNum st.2;
                                   matrix_xors := xim !!! num m |}] ∧
           xorclauses st'.1 = xorclauses st.1
      else gmatrices st'.1 = gmatrices st.1 ∧
           xorclauses st'.1 = xorclauses st.1 ++ returned xim m)) ∧
  conf (attach_xorclauses (admit_loop p xim s0 ms).1) = raised.
Proof.
  intros Hsv Hlow Hfit Hwp raised xim s0 ms. split; [|split].
  - unfold setup_matrices_attach_remaining_cls, raise_max_matrix_rows.
    rewrite Hsv. cbv zeta.
    destruct (N.leb_spec (2 ^ 32) (3 * N.of_nat (length sv))) as [?|_];
      [lia|].
    rewrite (proj2 (N.ltb_lt _ _) Hlow). cbn [xorclauses set_conf].
    by rewrite gather_well_placed by done.
  - intros pre m post _ st st'.
    assert (conf st.1 = raised) as Hconf by apply admit_loop_conf.
    split; [done|]. intros Hr Hmin. unfold st'. rewrite admit_loop_snoc.
    fold st. pose proof (use_matrix_few_rows p st m) as Hu.
    rewrite Hconf in Hu. specialize (Hu Hmin).
    destruct (fits_thresholds (gaussconf raised) (realMatrixNum st.2) m).
    + destruct (admit_step_accept p xim st m Hr Hu) as (? & ? & _). done.
    + destruct (admit_step_reject p xim st m Hr Hu) as (? & ? & _). done.
  - cbn [conf attach_xorclauses]. apply admit_loop_conf.
Qed.

End admission_claims.

(** ** [find_matrices] as a whole *)

Section find_matrices_claims.
Context `{!Collaborators}.

Lemma find_matrices_prepared s :
  decisionLevel s = 0 → ok s = true → gmatrices s = [] →
  (combined s).1 = true →
  let gc := gaussconf (conf s) in
  let n_xors := N.of_nat (length (xorclauses (prepared s))) in
  find_matrices s =
    if (n_xors <? min_gauss_xor_clauses gc)%N then
      Some (skip_matrices false (part_init (nVars s)) (prepared s))
    else if (max_gauss_xor_clauses gc <? n_xors)%N
            && bool_decide (is_Some (sampling_vars (conf s))) then
      Some (skip_matrices false (part_init (nVars s)) (prepared s))
    else if negb (doMatrixFind gc) then
      Some (skip_matrices true (part_init (nVars s)) (prepared s))
    else
      match setup_matrices_attach_remaining_cls
              (partition_loop (nVars s) (xorclauses (prepared s)))
              (prepared s) with
      | None => None
      | Some r =>
          Some {| result := ok r.1; matrix_created := true;
                  solver_after := r.1;
                  part_after :=
                    partition_loop (nVars s) (xorclauses (prepared s)) |}
      end.
Proof.
  intros Hdl Hok Hgm Hpre. unfold find_matrices.
  rewrite bool_decide_eq_true_2 by done. rewrite Hok.
  rewrite bool_decide_eq_true_2 by done. cbn [negb]. cbv zeta.
  cbn [xorclauses detach_clear_xorclauses set_xorclauses conf nVars
       set_clash_decision_vars].
  unfold combined in Hpre. rewrite Hpre. cbn [negb]. reflexivity.
Qed.

Lemma skip_matrices_frame created p s :
  matrix_created (skip_matrices created p s) = created ∧
  part_after (skip_matrices created p s) = p ∧
  gmatrices (solver_after (skip_matrices created p s)) = gmatrices s ∧
  xorclauses (solver_after (skip_matrices created p s)) = xorclauses s.
Proof. done. Qed.

(** The two gates on the number of XORs report that no matrix was made. *)
Lemma find_matrices_size_gates s :
  decisionLevel s = 0 → ok s = true → gmatrices s = [] →
  (combined s).1 = true →
  let gc := gaussconf (conf s) in
  let n_xors := N.of_nat (length (xorclauses (prepared s))) in
  (n_xors < min_gauss_xor_clauses gc)%N ∨
  ((max_gauss_xor_clauses gc < n_xors)%N ∧ is_Some (sampling_vars (conf s))) →
  find_matrices s =
    Some (skip_matrices false (part_init (nVars s)) (prepared s)).
Proof.
  intros Hdl Hok Hgm Hpre gc n_xors Hgate.
  rewrite find_matrices_prepared by done. cbv zeta. fold gc n_xors.
  destruct (N.ltb_spec n_xors (min_gauss_xor_clauses gc)); [done|].
  destruct Hgate as [?|[Hmax Hsv]]; [lia|].
  rewrite (proj2 (N.ltb_lt _ _) Hmax).
  by rewrite bool_decide_eq_true_2.
Qed.

(** The switch leaves the out-parameter as it was set on entry. *)
Lemma find_matrices_switched_off s :
  decisionLevel s = 0 → ok s = true → gmatrices s = [] →
  (combined s).1 = true →
  let gc := gaussconf (conf s) in
  let n_xors := N.of_nat (length (xorclauses (prepared s))) in
  (min_gauss_xor_clauses gc ≤ n_xors)%N →
  (n_xors ≤ max_gauss_xor_clauses gc)%N ∨ sampling_vars (conf s) = None →
  doMatrixFind gc = false →
  find_matrices s =
    Some (skip_matrices true (part_init (nVars s)) (prepared s)).
Proof.
  intros Hdl Hok Hgm Hpre gc n_xors Hmin Hmax Hoff.
  rewrite find_matrices_prepared by done. cbv zeta. fold gc n_xors.
  destruct (N.ltb_spec n_xors (min_gauss_xor_clauses gc)); [lia|].
  replace ((max_gauss_xor_clauses gc <? n_xors)%N
           && bool_decide (is_Some (sampling_vars (conf s)))) with false.
  - by rewrite Hoff.
  - symmetry. apply andb_false_iff. destruct Hmax as [Hmax|Hmax].
    + left. apply N.ltb_ge. done.
    + right. rewrite Hmax. apply bool_decide_eq_false_2. by intros [? ?].
Qed.

(** C2.  When [find_matrices] reaches the admission stage it returns, and
    the non-trivial XORs it partitioned are, each exactly once, either in
    one of the matrices it made or in the pool [solver->xorclauses]; an XOR
    in the pool has the variables, right-hand side and clash variables it
    came with and the tag [in_matrix = 1000]; the trivial XORs are in
    neither. *)
Theorem conservation s :
  decisionLevel s = 0 → ok s = true → gmatrices s = [] →
  (combined s).1 = true →
  let gc := gaussconf (conf s) in
  let xs := xorclauses (prepared s) in
  (min_gauss_xor_clauses gc ≤ N.of_nat (length xs))%N →
  (N.of_nat (length xs) ≤ max_gauss_xor_clauses gc)%N ∨
    sampling_vars (conf s) = None →
  doMatrixFind gc = true →
  Forall (vars_in_range (nVars s)) xs →
  nonempty_unless_trivial xs →
  (∀ sv, sampling_vars (conf s) = Some sv →
         (3 * N.of_nat (length sv) < 2 ^ 32)%N) →
  ∃ r rej,
    find_matrices s = Some r ∧
    xorclauses (solver_after r) = set_in_matrix not_in_matrix <$> rej ∧
    Forall2 (λ y x, vars y = vars x ∧ rhs y = rhs x ∧
                    clash_vars y = clash_vars x ∧ in_matrix y = 1000%N)
      (xorclauses (solver_after r)) rej ∧
    nontrivial xs ≡ₚ in_matrices (gmatrices (solver_after r)) ++ rej ∧
    ∀ x, x ∈ in_matrices (gmatrices (solver_after r)) ++ rej →
         trivial x = false.
Proof.
  intros Hdl Hok Hgm Hpre gc xs Hmin Hmax Hdo Hrange Hne Hsv.
  rewrite find_matrices_prepared by done. cbv zeta. fold gc xs.
  destruct (N.ltb_spec (N.of_nat (length xs)) (min_gauss_xor_clauses gc));
    [lia|].
  replace ((max_gauss_xor_clauses gc <? N.of_nat (length xs))%N
           && bool_decide (is_Some (sampling_vars (conf s)))) with false.
  2:{ symmetry. apply andb_false_iff. destruct Hmax as [Hmax|Hmax].
      - left. by apply N.ltb_ge.
      - right. rewrite Hmax. apply bool_decide_eq_false_2. by intros [? ?]. }
  rewrite Hdo. cbn [negb].
  destruct (setup_conserves (partition_loop (nVars s) xs) (prepared s))
    as (r & new & rej & Hr & Hg & Hx & Hperm).
  { by apply partition_loop_well_placed. }
  { done. }
  rewrite Hr. eexists _, rej. split; [done|]. cbn [solver_after].
  rewrite Hg. cbn [gmatrices prepared set_clash_decision_vars set_xorclauses
    detach_clear_xorclauses]. rewrite Hgm. simpl.
  split; [done|]. split.
  { rewrite Hx. apply Forall2_fmap_l, Forall_Forall2_diag, Forall_forall.
    by intros x _. }
  split; [done|].
  intros x Hx'. rewrite <-Hperm in Hx'. unfold nontrivial in Hx'.
  by apply list_elem_of_filter in Hx' as [? _].
Qed.

(** C6.  When [xor_together_xors] reports a contradiction, [find_matrices]
    returns false at once: the tables are as initialised, with no variable
    mapped and no component; there is no matrix; the configuration is
    untouched; and the XORs are left detached. *)
Theorem contradiction_aborts s :
  decisionLevel s = 0 → ok s = true → gmatrices s = [] →
  (combined s).1 = false →
  ∃ r,
    find_matrices s = Some r ∧
    result r = false ∧
    part_after r = part_init (nVars s) ∧
    (∀ v, tbl (table (part_after r)) v = None) ∧
    reverseTable (part_after r) = ∅ ∧
    gmatrices (solver_after r) = [] ∧
    gqueuedata (solver_after r) = gqueuedata s ∧
    conf (solver_after r) = conf s ∧
    xors_attached (solver_after r) = false.
Proof.
  intros Hdl Hok Hgm Hpre. unfold find_matrices.
  rewrite bool_decide_eq_true_2 by done. rewrite Hok.
  rewrite bool_decide_eq_true_2 by done. cbn [negb]. cbv zeta.
  cbn [xorclauses detach_clear_xorclauses set_xorclauses conf nVars].
  unfold combined in Hpre. rewrite Hpre. cbn [negb]. eexists. split; [reflexivity|]. simpl.
  repeat (split; [done|]). split; [|done].
  intros v. apply tbl_replicate.
Qed.

End find_matrices_claims.

(** ** The claims on an example *)

Lemma conservation_witness :
  decisionLevel demo_plain = 0 ∧
  ok demo_plain = true ∧
  gmatrices demo_plain = [] ∧
  ∃ r rej,
    @find_matrices (demo_collaborators true) demo_plain = Some r ∧
    xorclauses (solver_after r) = set_in_matrix not_in_matrix <$> rej ∧
    Forall2 (λ y x, vars y = vars x ∧ rhs y = rhs x ∧
                    clash_vars y = clash_vars x ∧ in_matrix y = 1000%N)
      (xorclauses (solver_after r)) rej ∧
    @nontrivial (demo_collaborators true) demo_xors
      ≡ₚ in_matrices (gmatrices (solver_after r)) ++ rej ∧
    (∀ x, x ∈ in_matrices (gmatrices (solver_after r)) ++ rej →
          @trivial (demo_collaborators true) x = false) ∧
    xorclauses (solver_after r) = demo_plain_pool ∧
    matrix_xors <$> gmatrices (solver_after r) = demo_plain_matrices.
Proof.
  split; [reflexivity|]. split; [reflexivity|]. split; [reflexivity|].
  pose proof (@conservation (demo_collaborators true) demo_plain
                eq_refl eq_refl eq_refl eq_refl) as Hc.
  cbv zeta in Hc.
  destruct Hc as (r & rej & Hr & Hx & Hf & Hp & Ht).
  - vm_compute. discriminate.
  - right. reflexivity.
  - reflexivity.
  - exact demo_vars_in_range.
  - exact (demo_nonempty_unless_trivial true).
  - intros sv Hsv. discriminate Hsv.
  - exists r, rej. repeat (split; [assumption|]).
    assert ((λ r, (xorclauses (solver_after r),
                   matrix_xors <$> gmatrices (solver_after r)))
              <$> @find_matrices (demo_collaborators true) demo_plain
            = Some (demo_plain_pool, demo_plain_matrices)) as Hv
      by (vm_compute; reflexivity).
    rewrite Hr in Hv. simpl in Hv. injection Hv as Hv1 Hv2. by split.
Defined.

Lemma contradiction_aborts_witness :
  (@combined (demo_collaborators false) demo_plain).1 = false ∧
  ∃ r,
    @find_matrices (demo_collaborators false) demo_plain = Some r ∧
    result r = false ∧
    part_after r = part_init (nVars demo_plain) ∧
    (∀ v, tbl (table (part_after r)) v = None) ∧
    reverseTable (part_after r) = ∅ ∧
    gmatrices (solver_after r) = [] ∧
    gqueuedata (solver_after r) = gqueuedata demo_plain ∧
    conf (solver_after r) = conf demo_plain ∧
    xors_attached (solver_after r) = false.
Proof.
  split; [reflexivity|].
  exact (@contradiction_aborts (demo_collaborators false) demo_plain
           eq_refl eq_refl eq_refl eq_refl).
Defined.

Lemma sampling_override_witness :
  sampling_vars (conf demo_sampled) = Some [1] ∧
  (min_matrix_rows (gaussconf (conf demo_sampled))
     < rows demo_shape)%N ∧
  let p := partition_loop 6 demo_xors in
  let st := @admit_loop (demo_collaborators true) p demo_buckets
              demo_sampled [] in
  let st' := @admit_loop (demo_collaborators true) p demo_buckets
               demo_sampled ([] ++ [demo_shape]) in
  let ratio_sampling :=
    (@ratio_sampling_block (demo_collaborators true) p st.1
       (num demo_shape)).1 in
  if (0.6 <=? ratio_sampling)%float
  then gmatrices st'.1 =
         gmatrices st.1 ++ [{| matrix_num := realMatrixNum st.2;
                               matrix_xors := demo_buckets !!! num demo_shape |}] ∧
       xorclauses st'.1 = xorclauses st.1
  else gmatrices st'.1 = gmatrices st.1 ∧
       xorclauses st'.1 = xorclauses st.1 ++ returned demo_buckets demo_shape.
Proof.
  split; [reflexivity|]. split; [reflexivity|].
  exact (@sampling_override (demo_collaborators true)
           (partition_loop 6 demo_xors) demo_buckets
           demo_sampled [] demo_shape [1] eq_refl eq_refl).
Defined.

Lemma oversized_rejected_witness :
  sampling_vars (conf demo_plain) = None ∧
  (max_matrix_rows (gaussconf (conf demo_plain)) < rows demo_shape ∨
   max_matrix_columns (gaussconf (conf demo_plain))
     < cols demo_shape)%N ∧
  rows demo_shape = N.of_nat (length (demo_buckets !!! num demo_shape)) ∧
  let p := partition_loop 6 demo_xors in
  let st := @admit_loop (demo_collaborators true) p demo_buckets
              demo_plain [] in
  let st' := @admit_loop (demo_collaborators true) p demo_buckets
               demo_plain ([] ++ [demo_shape]) in
  raise_max_matrix_rows (conf demo_plain) = Some (conf demo_plain) ∧
  gmatrices st'.1 = gmatrices st.1 ∧
  realMatrixNum st'.2 = realMatrixNum st.2 ∧
  xorclauses st'.1 = xorclauses st.1 ++ returned demo_buckets demo_shape.
Proof.
  split; [reflexivity|]. split; [left; reflexivity|]. split; [reflexivity|].
  exact (@oversized_rejected (demo_collaborators true)
           (partition_loop 6 demo_xors) demo_buckets demo_plain []
           demo_shape eq_refl (or_introl eq_refl) eq_refl).
Defined.

Lemma demo_seen_clear sv : seen_clear (seen (demo_solver sv)).
Proof. unfold seen_clear. simpl. repeat constructor. Defined.

Lemma demo_members_in_range :
  Forall (λ v, v < nVars demo_sampled4)
    (reverseTable (partition_loop 6 demo_xors) !!! 0).
Proof.
  change (reverseTable (partition_loop 6 demo_xors) !!! 0)
    with (ltac:(let t := eval vm_compute in
                  (reverseTable (partition_loop 6 demo_xors) !!! 0) in
                exact t)).
  simpl. repeat constructor; lia.
Defined.

Lemma ratio_sampling_value_witness :
  seen_clear (seen demo_sampled4) ∧
  (@ratio_sampling_block (demo_collaborators true)
     (partition_loop 6 demo_xors)
     (@admit_loop (demo_collaborators true) (partition_loop 6 demo_xors)
        demo_buckets demo_sampled4 []).1 0).1 =
  (to_double (N.of_nat (length (@covered (demo_collaborators true)
      (reverseTable (partition_loop 6%nat demo_xors) !!! 0%nat)
      demo_sampling_vars))) /
   to_double (N.of_nat (length demo_sampling_vars)))%float.
Proof.
  split; [exact (demo_seen_clear _)|].
  apply (@ratio_sampling_value (demo_collaborators true)
           (partition_loop 6 demo_xors) demo_buckets
           demo_sampled4 [] 0 demo_sampling_vars).
  - exact (demo_seen_clear _).
  - simpl. lia.
  - exact demo_members_in_range.
  - reflexivity.
  - vm_compute. reflexivity.
Defined.

Lemma demo_well_placed :
  @well_placed (demo_collaborators true) (partition_loop 6 demo_xors)
    (xorclauses demo_sampled).
Proof.
  unfold well_placed. simpl. repeat constructor; intros Ht.
  - exists 0. split; [by vm_compute|]. vm_compute. lia.
  - exists 0. split; [by vm_compute|]. vm_compute. lia.
  - exists 1. split; [by vm_compute|]. vm_compute. lia.
  - discriminate Ht.
Defined.

Lemma max_matrix_rows_raised_witness :
  sampling_vars (conf demo_raised) = Some [1] ∧
  (max_matrix_rows (gaussconf (conf demo_raised)) < 3)%N ∧
  let p := partition_loop 6 demo_xors in
  let raised := set_max_matrix_rows 3 (conf demo_raised) in
  let xim := (@gathered (demo_collaborators true) p demo_xors).2 in
  let s0 := set_xorclauses [] (set_conf raised demo_raised) in
  let ms :=
    reverse (@sort_shapes (demo_collaborators true)
               (compute_density
                  <$> (@gathered (demo_collaborators true) p demo_xors).1)) in
  let r := @attach_xorclauses (demo_collaborators true)
             (@admit_loop (demo_collaborators true) p xim s0 ms).1 in
  @setup_matrices_attach_remaining_cls (demo_collaborators true) p demo_raised
    = Some (r, realMatrixNum (@admit_loop (demo_collaborators true)
                                p xim s0 ms).2) ∧
  (∀ pre m post, ms = pre ++ m :: post →
     let st := @admit_loop (demo_collaborators true) p xim s0 pre in
     let st' := @admit_loop (demo_collaborators true) p xim s0 (pre ++ [m]) in
     conf st.1 = raised ∧
     (rows m ≠ 0%N →
      (rows m ≤ min_matrix_rows (gaussconf (conf demo_raised)))%N →
      if fits_thresholds (gaussconf raised) (realMatrixNum st.2) m
      then gmatrices st'.1 =
             gmatrices st.1 ++ [{| matrix_num := realMatrixNum st.2;
                                   matrix_xors := xim !!! num m |}] ∧
           xorclauses st'.1 = xorclauses st.1
      else gmatrices st'.1 = gmatrices st.1 ∧
           xorclauses st'.1 = xorclauses st.1 ++ returned xim m)) ∧
  conf r = raised ∧
  matrix_xors <$> gmatrices r = demo_raised_matrices ∧
  xorclauses r = demo_raised_pool.
Proof.
  split; [reflexivity|]. split; [reflexivity|].
  intros p raised xim s0 ms r.
  pose proof (@max_matrix_rows_raised (demo_collaborators true)
                (partition_loop 6 demo_xors) demo_raised [1]
                eq_refl eq_refl eq_refl demo_well_placed) as Hc.
  cbv zeta in Hc. destruct Hc as (Hrun & Hstep & Hconf).
  split; [exact Hrun|]. split; [exact Hstep|]. split; [exact Hconf|].
  split; vm_compute; reflexivity.
Defined.

(** C5.  With matrix finding switched off by the configuration the routine
    makes no matrix, leaves the tables as initialised and returns the XORs
    unchanged, but the out-parameter [matrix_created] still holds the
    [true] it was given on entry. *)
Theorem switched_off_still_reports_created :
  ∃ r,
    @find_matrices (demo_collaborators true) demo_disabled = Some r ∧
    matrix_created r = true ∧
    gmatrices (solver_after r) = [] ∧
    part_after r = part_init 6 ∧
    xorclauses (solver_after r) = demo_xors.
Proof. eexists. split; [vm_compute; reflexivity|]. by vm_compute. Qed.

(** ** The scenarios of the specification *)

Example partition_of_the_example :
  table (partition_loop 6 demo_xors) =
    [None; Some 0; Some 0; Some 0; Some 1; Some 1] ∧
  reverseTable (partition_loop 6 demo_xors) !! 0 = Some [1; 2; 3] ∧
  reverseTable (partition_loop 6 demo_xors) !! 1 = Some [4; 5] ∧
  matrix_no (partition_loop 6 demo_xors) = 2.
Proof. by vm_compute. Qed.

(** Merging retires the two components and uses a fresh number. *)
Example partition_merges :
  let st := partition_loop 6 (demo_xors ++ [mkXor [3; 4] true [] 0]) in
  table st = [None; Some 2; Some 2; Some 2; Some 2; Some 2] ∧
  reverseTable st !! 0 = None ∧ reverseTable st !! 1 = None ∧
  reverseTable st !! 2 = Some [1; 2; 3; 4; 5] ∧
  matrix_no st = 3.
Proof. by vm_compute. Qed.

(** Scenario 1: two components, both accepted; the trivial XOR is in
    neither output (scenario 5). *)
Example scenario_both_accepted :
  outcome (@find_matrices (demo_collaborators true)
             (example_solver (scenario_conf 1 100 10) None)) =
  Some (true, true,
        [ [mkXor [1; 2] false [] 0; mkXor [2; 3] false [] 0];
          [mkXor [4; 5] false [] 0] ],
        []).
Proof. by vm_compute. Qed.

(** Scenario 2: with [max_num_matrices = 1] the second component goes to
    the pool, tagged. *)
Example scenario_cap :
  outcome (@find_matrices (demo_collaborators true)
             (example_solver (scenario_conf 1 100 1) None)) =
  Some (true, true,
        [ [mkXor [1; 2] false [] 0; mkXor [2; 3] false [] 0] ],
        [ mkXor [4; 5] false [] 1000 ]).
Proof. by vm_compute. Qed.

(** Scenario 3: too few XORs; nothing is done and no matrix is reported. *)
Example scenario_too_few :
  outcome (@find_matrices (demo_collaborators true)
             (example_solver (scenario_conf 5 100 10) None)) =
  Some (true, false, [], demo_xors).
Proof. by vm_compute. Qed.

(** Scenario 4: the sampling variable [v1] lies in the first component,
    which has two rows; it is accepted although [max_matrix_rows] is 1 (and
    is raised to 3 only).  The second component has one row, which is not
    above [min_matrix_rows]: the size checks stand and accept it. *)
Example scenario_override :
  outcome (@find_matrices (demo_collaborators true)
             (example_solver (scenario_conf 1 1 10) (Some [1]))) =
  Some (true, true,
        [ [mkXor [1; 2] false [] 0; mkXor [2; 3] false [] 0];
          [mkXor [4; 5] false [] 0] ],
        []).
Proof. by vm_compute. Qed.

(** An empty set of sampling variables makes the ratio 0/0, which is not
    at least 0.6: the component with two rows is rejected. *)
Example scenario_no_sampling_variable :
  outcome (@find_matrices (demo_collaborators true)
             (example_solver (scenario_conf 1 100 10) (Some []))) =
  Some (true, true,
        [ [mkXor [4; 5] false [] 0] ],
        [ mkXor [1; 2] false [] 1000; mkXor [2; 3] false [] 1000 ]).
Proof. by vm_compute. Qed.

(** A non-trivial XOR without variables ([0 = 1]) makes [x[0]] undefined. *)
Example empty_nontrivial_xor_is_undefined :
  @setup_matrices_attach_remaining_cls (demo_collaborators true)
    (partition_loop 6 [mkXor [] true [] 0])
    (set_xorclauses [mkXor [] true [] 0] demo_plain) = None.
Proof. by vm_compute. Qed.

(** Of the sampling variables 1, 4, 5 and 0, variable 1 is in the first
    component and variable 4 is assigned: the ratio is 2/4. *)
Example ratio_of_the_example :
  (@ratio_sampling_block (demo_collaborators true)
     (partition_loop 6 demo_xors) demo_sampled4 0).1 = 0.5%float ∧
  @covered (demo_collaborators true)
     (reverseTable (partition_loop 6 demo_xors) !!! 0) demo_sampling_vars
    = [1; 4].
Proof. by vm_compute. Qed.

(** The shapes of the example before the sort: two rows over three columns
    with density 4/6, and one row over two columns with density 1. *)
Example shapes_of_the_example :
  (λ g : list MatrixShape * list (list Xor), compute_density <$> g.1)
    <$> @gather (demo_collaborators true) (partition_loop 6 demo_xors)
          demo_xors =
  Some [ mkShape 0 2 3 4 (4 / 6)%float; mkShape 1 1 2 2 1%float ].
Proof. by vm_compute. Qed.

(** * Further properties of the code *)

(** ** [fingerprint] and [firstPartOfSecond] *)

Lemma firstPartOfSecond_from_tail a c1 c2 :
  firstPartOfSecond_from (a :: c1) c2 = true →
  firstPartOfSecond_from c1 c2 = true.
Proof.
  revert a c1. induction c2 as [|b c2 IH]; intros a c1; [done|].
  intros H.
  assert (H' : firstPartOfSecond_from c1 c2 = true).
  { simpl in H. case_decide; [by apply (IH a)|done]. }
  destruct c1 as [|a' c1]; [done|]. simpl.
  case_decide; [done|by apply (IH a')].
Qed.

Lemma firstPartOfSecond_from_sublist c1 c2 :
  firstPartOfSecond_from c1 c2 = true ↔ sublist c1 c2.
Proof.
  split.
  - revert c1. induction c2 as [|b c2 IH]; intros c1.
    + destruct c1; [constructor|done].
    + destruct c1 as [|a c1]; [intros _; apply sublist_nil_l|]. simpl.
      case_decide as Hab.
      * intros H. apply sublist_cons_r. left. by apply IH.
      * intros H. subst b. apply sublist_skip. by apply IH.
  - induction 1 as [|a c1 c2 _ IH|b c1 c2 _ IH].
    + done.
    + simpl. by rewrite decide_False by (intros ?; done).
    + destruct c1 as [|a c1]; [done|]. simpl.
      case_decide; [done|]. by apply (firstPartOfSecond_from_tail a).
Qed.

Lemma testbit_fingerprint_from fp vs i :
  N.testbit (fingerprint_from fp vs) i =
  N.testbit fp i || existsb (λ v, N.testbit (N.of_nat v) i) vs.
Proof.
  unfold fingerprint_from. revert fp.
  induction vs as [|v vs IH]; intros fp; simpl.
  - by rewrite orb_false_r.
  - by rewrite IH, N.lor_spec, orb_assoc.
Qed.

Lemma lor_lt_pow2 a b n :
  (a < 2 ^ n)%N → (b < 2 ^ n)%N → (N.lor a b < 2 ^ n)%N.
Proof.
  intros Ha Hb.
  destruct (decide (a = 0%N)) as [->|Ha0]; [by rewrite N.lor_0_l|].
  destruct (decide (b = 0%N)) as [->|Hb0]; [by rewrite N.lor_0_r|].
  assert (N.lor a b ≠ 0%N) as Hab.
  { intros H. apply N.lor_eq_0_iff in H. tauto. }
  apply N.log2_lt_pow2; [lia|]. rewrite N.log2_lor.
  apply N.log2_lt_pow2 in Ha; [|lia]. apply N.log2_lt_pow2 in Hb; [|lia].
  lia.
Qed.

Lemma fingerprint_from_lt fp vs n :
  (fp < 2 ^ n)%N → Forall (λ v, (N.of_nat v < 2 ^ n)%N) vs →
  (fingerprint_from fp vs < 2 ^ n)%N.
Proof.
  unfold fingerprint_from. revert fp.
  induction vs as [|v vs IH]; intros fp Hfp Hvs; simpl; [done|].
  apply Forall_cons in Hvs as [Hv Hvs]. apply IH; [|done].
  by apply lor_lt_pow2.
Qed.

(** X1.  [firstPartOfSecond(c1, c2)] holds exactly when the variables of
    [c1] occur in [c2] in the same order, not necessarily next to each
    other nor at its start: it is a subsequence test. *)
Theorem firstPartOfSecond_subsequence c1 c2 :
  firstPartOfSecond c1 c2 = true ↔ sublist (vars c1) (vars c2).
Proof. apply firstPartOfSecond_from_sublist. Qed.

(** X2.  The fingerprint of an XOR has every bit of each of its variables,
    is 0 for an XOR without variables, and fits 32 bits when the variables
    do. *)
Theorem fingerprint_covers x :
  (∀ v, v ∈ vars x → N.land (N.of_nat v) (fingerprint x) = N.of_nat v) ∧
  (vars x = [] → fingerprint x = 0%N) ∧
  (Forall (λ v, (N.of_nat v < 2 ^ 32)%N) (vars x) →
   (fingerprint x < 2 ^ 32)%N).
Proof.
  split; [|split].
  - intros v Hv. apply N.bits_inj. intros i.
    rewrite N.land_spec. unfold fingerprint.
    rewrite testbit_fingerprint_from. simpl.
    destruct (N.testbit (N.of_nat v) i) eqn:Hb; [|done]. simpl.
    apply existsb_exists. exists v. split; [|done].
    by apply list_elem_of_In.
  - intros Hnil. unfold fingerprint. by rewrite Hnil.
  - intros Hvs. by apply fingerprint_from_lt.
Qed.

(** X3.  The fingerprints are a sound filter for [firstPartOfSecond]: when
    it holds, [fingerprint(c1) & ~fingerprint(c2)] is 0. *)
Theorem fingerprint_filter c1 c2 :
  firstPartOfSecond c1 c2 = true →
  N.ldiff (fingerprint c1) (fingerprint c2) = 0%N.
Proof.
  intros H. apply firstPartOfSecond_from_sublist in H.
  apply N.bits_inj. intros i. rewrite N.ldiff_spec, N.bits_0.
  unfold fingerprint. rewrite !testbit_fingerprint_from. simpl.
  destruct (existsb (λ v, N.testbit (N.of_nat v) i) (vars c1)) eqn:E;
    [|done].
  apply existsb_exists in E as (v & Hv & Hb).
  apply list_elem_of_In in Hv.
  assert (v ∈ vars c2) as Hv2 by by apply (sublist_subseteq _ _ H).
  replace (existsb (λ v, N.testbit (N.of_nat v) i) (vars c2)) with true;
    [done|].
  symmetry. apply existsb_exists. exists v. split; [|done].
  by apply list_elem_of_In.
Qed.

Lemma fingerprint_filter_witness :
  firstPartOfSecond (mkXor [2; 5] false [] 0) (mkXor [1; 2; 3; 5] false [] 0)
    = true ∧
  N.ldiff (fingerprint (mkXor [2; 5] false [] 0))
          (fingerprint (mkXor [1; 2; 3; 5] false [] 0)) = 0%N.
Proof.
  split; [reflexivity|].
  exact (fingerprint_filter (mkXor [2; 5] false [] 0)
           (mkXor [1; 2; 3; 5] false [] 0) eq_refl).
Defined.

(** ** More on the partitioner *)

Lemma belong_same_matrix_nil t x :
  vars x = [] → belong_same_matrix t x = true.
Proof. unfold belong_same_matrix. by intros ->. Qed.

Lemma belong_same_matrix_all t x c :
  Forall (λ v, tbl t v = Some c) (vars x) → belong_same_matrix t x = true.
Proof.
  unfold belong_same_matrix. destruct (vars x) as [|w vs]; simpl; [done|].
  intros [Hw Hall]%Forall_cons. rewrite Hw.
  by rewrite belong_same_matrix_from_Some.
Qed.

(** X4.  [belong_same_matrix] returns true exactly when the XOR has no
    variable or all its variables are mapped to one and the same component;
    a single unmapped variable makes it false. *)
Theorem belong_same_matrix_iff t x :
  belong_same_matrix t x = true ↔
  vars x = [] ∨ ∃ c, Forall (λ v, tbl t v = Some c) (vars x).
Proof.
  unfold belong_same_matrix. destruct (vars x) as [|w vs]; simpl.
  - split; [by left|done].
  - destruct (tbl t w) as [c|] eqn:Ew.
    + rewrite belong_same_matrix_from_Some. split.
      * intros Hall. right. exists c. by constructor.
      * intros [?|(c' & Hall)]; [done|].
        apply Forall_cons in Hall as [Hw Hall].
        assert (c' = c) as -> by congruence. done.
    + split; [done|]. intros [?|(c' & Hall)]; [done|].
      apply Forall_cons in Hall as [Hw _]. congruence.
Qed.

Lemma belong_same_matrix_same_comp t x :
  (∀ u v, u ∈ vars x → v ∈ vars x → same_comp t u v) →
  belong_same_matrix t x = true.
Proof.
  intros Hall.
  destruct (decide (vars x = [])) as [?|Hne];
    [by apply belong_same_matrix_nil|].
  assert (∃ w, w ∈ vars x) as [w Hw].
  { destruct (vars x) as [|w vs]; [done|]. exists w. apply list_elem_of_here. }
  destruct (Hall w w Hw Hw) as (c & Hc & _).
  apply (belong_same_matrix_all t x c).
  apply Forall_forall. intros v Hv.
  destruct (Hall w v Hw Hv) as (c' & Hc' & Hv'). congruence.
Qed.

Lemma chain_left xs u v : chain xs u v → ∃ x, x ∈ xs ∧ u ∈ vars x.
Proof. induction 1 as [x u v Hx Hu _|u w v _ IH _ _]; eauto. Qed.

(** X5.  An XOR that the loop has met before is skipped: processing it
    again leaves [table], [reverseTable] and [matrix_no] as they are. *)
Theorem partition_loop_repeat nv xs x :
  Forall (vars_in_range nv) xs → x ∈ xs →
  partition_loop nv (xs ++ [x]) = partition_loop nv xs.
Proof.
  intros Hrange Hx. rewrite partition_loop_snoc.
  destruct (partition_loop_spec nv xs Hrange) as [_ Hrel].
  unfold partition_step. rewrite belong_same_matrix_same_comp; [done|].
  intros u v Hu Hv. apply Hrel. by apply (chain_xor xs x).
Qed.

Lemma partition_loop_repeat_witness :
  Forall (vars_in_range 6) demo_xors ∧
  mkXor [2; 3] false [] 0 ∈ demo_xors ∧
  partition_loop 6 (demo_xors ++ [mkXor [2; 3] false [] 0])
    = partition_loop 6 demo_xors.
Proof.
  assert (H : mkXor [2; 3] false [] 0 ∈ demo_xors).
  { unfold demo_xors. apply list_elem_of_further, list_elem_of_here. }
  split; [exact demo_vars_in_range|]. split; [exact H|].
  exact (partition_loop_repeat 6 demo_xors _ demo_vars_in_range H).
Defined.

(** X6.  When the loop ends, the variables with a component are exactly
    those that occur in some XOR; the others still hold [var_Undef].  The
    component of a variable is below [matrix_no] and has a membership
    list. *)
Theorem assigned_iff_occurs nv xs :
  Forall (vars_in_range nv) xs →
  let st := partition_loop nv xs in
  (∀ v, is_Some (tbl (table st) v) ↔ ∃ x, x ∈ xs ∧ v ∈ vars x) ∧
  (∀ v c, tbl (table st) v = Some c →
          c < matrix_no st ∧ is_Some (reverseTable st !! c)).
Proof.
  intros Hrange st.
  destruct (partition_loop_spec nv xs Hrange) as [Hinv Hrel].
  fold st in Hinv, Hrel. split.
  - intros v. split.
    + intros [c Hc]. apply (chain_left xs v v). apply Hrel. by exists c.
    + intros (x & Hx & Hv).
      assert (chain xs v v) as Hc by by apply (chain_xor xs x).
      apply Hrel in Hc as (c & Hc & _). by exists c.
  - intros v c Hc.
    apply (inv_inverse _ _ Hinv) in Hc as (l & Hl & _).
    split; [apply (inv_fresh _ _ Hinv)|]; by exists l.
Qed.

Lemma assigned_iff_occurs_witness :
  Forall (vars_in_range 6) demo_xors ∧
  ((∀ v, is_Some (tbl (table (partition_loop 6 demo_xors)) v) ↔
         ∃ x, x ∈ demo_xors ∧ v ∈ vars x) ∧
   (∀ v c, tbl (table (partition_loop 6 demo_xors)) v = Some c →
           c < matrix_no (partition_loop 6 demo_xors) ∧
           is_Some (reverseTable (partition_loop 6 demo_xors) !! c))).
Proof.
  split; [exact demo_vars_in_range|].
  exact (assigned_iff_occurs 6 demo_xors demo_vars_in_range).
Defined.

Lemma partition_step_matrix_no st x :
  matrix_no st ≤ matrix_no (partition_step st x) ≤ S (matrix_no st).
Proof.
  unfold partition_step. destruct (belong_same_matrix (table st) x); [lia|].
  cbv zeta.
  destruct (scan_xor (table st) (vars x)).1 as [|into [|c2 rest]];
    simpl; lia.
Qed.

Lemma partition_step_retired st x c :
  c < matrix_no st → reverseTable st !! c = None →
  reverseTable (partition_step st x) !! c = None.
Proof.
  intros Hc Hnone. unfold partition_step.
  destruct (belong_same_matrix (table st) x); [done|]. cbv zeta.
  assert (Hmerge : ∀ tomerge,
    (<[matrix_no st :=
        (foldl merge_step
           ((scan_xor (table st) (vars x)).2, reverseTable st) tomerge).1]>
      (foldl merge_step
         ((scan_xor (table st) (vars x)).2, reverseTable st) tomerge).2)
    !! c = None).
  { intros tomerge. rewrite lookup_insert_ne by lia.
    rewrite merge_fold_lookup. by case_decide. }
  destruct (scan_xor (table st) (vars x)).1 as [|into [|c2 rest]].
  - apply Hmerge.
  - rewrite absorb_fold. cbn [reverseTable snd].
    rewrite lookup_alter. case_decide; [subst|done]. by rewrite Hnone.
  - apply Hmerge.
Qed.

(** X7.  Component numbers are handed out in increasing order, at most one
    per XOR, and a number whose component has been merged away is not used
    again: it has no membership list for the rest of the loop. *)
Theorem retired_never_reused nv pre post c :
  c < matrix_no (partition_loop nv pre) →
  reverseTable (partition_loop nv pre) !! c = None →
  reverseTable (partition_loop nv (pre ++ post)) !! c = None ∧
  matrix_no (partition_loop nv pre)
    ≤ matrix_no (partition_loop nv (pre ++ post))
    ≤ length (pre ++ post).
Proof.
  intros Hc Hnone.
  assert (Hlen : ∀ xs, matrix_no (partition_loop nv xs) ≤ length xs).
  { induction xs as [|x xs IH] using rev_ind; [done|].
    rewrite partition_loop_snoc, length_app. simpl.
    pose proof (partition_step_matrix_no (partition_loop nv xs) x). lia. }
  split; [|split; [|apply Hlen]].
  - induction post as [|x post IH] using rev_ind.
    + by rewrite app_nil_r.
    + rewrite app_assoc, partition_loop_snoc.
      apply partition_step_retired; [|done].
      clear IH. induction post as [|y post IH] using rev_ind.
      * by rewrite app_nil_r.
      * rewrite app_assoc, partition_loop_snoc.
        pose proof (partition_step_matrix_no
                      (partition_loop nv (pre ++ post)) y). lia.
  - induction post as [|x post IH] using rev_ind.
    + by rewrite app_nil_r.
    + rewrite app_assoc, partition_loop_snoc.
      pose proof (partition_step_matrix_no
                    (partition_loop nv (pre ++ post)) x). lia.
Qed.

Lemma retired_never_reused_witness :
  0 < matrix_no (partition_loop 6 (demo_xors ++ [mkXor [3; 4] true [] 0])) ∧
  reverseTable (partition_loop 6 (demo_xors ++ [mkXor [3; 4] true [] 0])) !! 0
    = None ∧
  reverseTable
    (partition_loop 6 ((demo_xors ++ [mkXor [3; 4] true [] 0])
                       ++ [mkXor [0] true [] 0])) !! 0 = None ∧
  matrix_no (partition_loop 6 (demo_xors ++ [mkXor [3; 4] true [] 0]))
    ≤ matrix_no (partition_loop 6 ((demo_xors ++ [mkXor [3; 4] true [] 0])
                                   ++ [mkXor [0] true [] 0]))
    ≤ length ((demo_xors ++ [mkXor [3; 4] true [] 0])
              ++ [mkXor [0] true [] 0]).
Proof.
  assert (H1 : 0 < matrix_no
                 (partition_loop 6 (demo_xors ++ [mkXor [3; 4] true [] 0]))).
  { vm_compute. lia. }
  assert (H2 : reverseTable
                 (partition_loop 6 (demo_xors ++ [mkXor [3; 4] true [] 0]))
                 !! 0 = None) by by vm_compute.
  split; [exact H1|]. split; [exact H2|].
  exact (retired_never_reused 6 (demo_xors ++ [mkXor [3; 4] true [] 0])
           [mkXor [0] true [] 0] 0 H1 H2).
Defined.

Lemma partition_step_nonempty nv st x :
  part_inv nv st →
  (∀ c l, reverseTable st !! c = Some l → l ≠ []) →
  ∀ c l, reverseTable (partition_step st x) !! c = Some l → l ≠ [].
Proof.
  intros Hinv Hne. unfold partition_step.
  destruct (belong_same_matrix (table st) x) eqn:Hbsm; [done|]. cbv zeta.
  assert (∃ w, w ∈ vars x) as [w Hw].
  { destruct (vars x) as [|w vs] eqn:E.
    - assert (belong_same_matrix (table st) x = true); [|congruence].
      by apply belong_same_matrix_nil.
    - exists w. apply list_elem_of_here. }
  assert (Hmerge : ∀ tomerge, tomerge = (scan_xor (table st) (vars x)).1 →
    ∀ c l,
    (<[matrix_no st :=
        (foldl merge_step
           ((scan_xor (table st) (vars x)).2, reverseTable st) tomerge).1]>
      (foldl merge_step
         ((scan_xor (table st) (vars x)).2, reverseTable st) tomerge).2)
    !! c = Some l → l ≠ []).
  { intros tomerge Htm c l.
    destruct (decide (c = matrix_no st)) as [->|Hc].
    - rewrite lookup_insert_eq. intros [= <-].
      assert (w ∈ (foldl merge_step
                ((scan_xor (table st) (vars x)).2, reverseTable st)
                tomerge).1) as Hin; [|by intros E; rewrite E in Hin;
                                        apply elem_of_nil in Hin].
      apply merge_fold_elem.
      destruct (tbl (table st) w) as [d|] eqn:Ed.
      + right. apply (inv_inverse _ _ Hinv) in Ed as Hl.
        destruct Hl as (l & Hl & Hwl). exists d, l.
        split; [|done]. rewrite Htm. apply scan_xor_tomerge. by exists w.
      + left. by apply scan_xor_newSet.
    - rewrite lookup_insert_ne by done. rewrite merge_fold_lookup.
      case_decide; [done|]. apply Hne. }
  destruct (scan_xor (table st) (vars x)).1 as [|into [|c2 rest]] eqn:Etm.
  - by apply Hmerge.
  - rewrite absorb_fold. cbn [reverseTable snd]. intros c l.
    rewrite lookup_alter. case_decide; [subst c|apply Hne].
    destruct (reverseTable st !! into) as [l0|] eqn:Hl0; simpl; [|done].
    intros [= <-] E. apply app_eq_nil in E as [E _]. by apply (Hne into l0).
  - by apply Hmerge.
Qed.

(** X8.  No component is empty: every membership list the loop leaves in
    [reverseTable] has a variable, so a live component has [cols > 0]. *)
Theorem components_not_empty nv xs :
  Forall (vars_in_range nv) xs →
  ∀ c l, reverseTable (partition_loop nv xs) !! c = Some l → l ≠ [].
Proof.
  induction xs as [|x xs IH] using rev_ind; intros Hrange.
  - intros c l Hl. simpl in Hl. by rewrite lookup_empty in Hl.
  - apply Forall_app in Hrange as [Hrange _].
    rewrite partition_loop_snoc. apply (partition_step_nonempty nv).
    + by apply partition_loop_spec.
    + by apply IH.
Qed.

Lemma components_not_empty_witness :
  Forall (vars_in_range 6) demo_xors ∧
  ∀ c l, reverseTable (partition_loop 6 demo_xors) !! c = Some l → l ≠ [].
Proof.
  split; [exact demo_vars_in_range|].
  exact (components_not_empty 6 demo_xors demo_vars_in_range).
Defined.

(** ** More on the admission loop *)

Section admission_extras.
Context `{!Collaborators}.

Lemma use_matrix_no_sampling p st m :
  sampling_vars (conf st.1) = None →
  use_matrix_of p st m =
  fits_thresholds (gaussconf (conf st.1)) (realMatrixNum st.2) m.
Proof.
  intros Hsv. unfold use_matrix_of, final_decision, size_checks,
    fits_thresholds. cbv zeta. rewrite Hsv.
  rewrite bool_decide_eq_false_2 by by intros [? ?]. cbn [fst snd andb].
  set (gc := gaussconf (conf st.1)).
  destruct (N.ltb_spec (max_matrix_rows gc) (rows m)),
    (N.leb_spec (rows m) (max_matrix_rows gc)); try lia;
  destruct (N.ltb_spec (max_matrix_columns gc) (cols m)),
    (N.leb_spec (cols m) (max_matrix_columns gc)); try lia;
  destruct (N.ltb_spec (rows m) (min_matrix_rows gc)),
    (N.leb_spec (min_matrix_rows gc) (rows m)); try lia;
  destruct (N.leb_spec (max_num_matrices gc) (realMatrixNum st.2)),
    (N.ltb_spec (realMatrixNum st.2) (max_num_matrices gc)); try lia;
  destruct (N.ltb_spec (min_matrix_rows gc) (rows m)); simpl; done.
Qed.

Lemma admit_step_gqueuedata p xim st m :
  gqueuedata (admit_step p xim st m).1 =
  if negb (rows m =? 0)%N && use_matrix_of p st m
  then S (length (gmatrices st.1))
  else gqueuedata st.1.
Proof.
  unfold admit_step, use_matrix_of. destruct (rows m =? 0)%N; [done|].
  cbv zeta. cbn [negb andb].
  destruct (size_checks (gaussconf (conf st.1)) m).2; cbn [realMatrixNum
    incr_too_few conf set_seen];
    case_match; cbn [fst gqueuedata push_gmatrix set_xorclauses set_seen
      gmatrices]; rewrite ?length_app; simpl; lia.
Qed.

(** Under its preconditions the routine runs the admission loop over a
    rearrangement of the shapes and returns. *)
Lemma setup_runs p s :
  well_placed p (xorclauses s) →
  (∀ sv, sampling_vars (conf s) = Some sv →
         (3 * N.of_nat (length sv) < 2 ^ 32)%N) →
  ∃ c' ms,
    raise_max_matrix_rows (conf s) = Some c' ∧
    ms ≡ₚ compute_density <$> (gathered p (xorclauses s)).1 ∧
    setup_matrices_attach_remaining_cls p s =
      Some (attach_xorclauses
              (admit_loop p (gathered p (xorclauses s)).2
                 (set_xorclauses [] (set_conf c' s)) ms).1,
            realMatrixNum
              (admit_loop p (gathered p (xorclauses s)).2
                 (set_xorclauses [] (set_conf c' s)) ms).2).
Proof.
  intros Hwp Hsv. unfold setup_matrices_attach_remaining_cls.
  destruct (raise_max_matrix_rows_Some _ Hsv) as (c' & Hc' & _).
  rewrite Hc'. cbv zeta. cbn [xorclauses set_conf].
  rewrite gather_well_placed by done.
  eexists c', _. split; [done|]. split; [|reflexivity].
  by rewrite reverse_Permutation, sort_shapes_perm.
Qed.

Lemma gathered_shapes_length p xs :
  length (compute_density <$> (gathered p xs).1) = matrix_no p.
Proof. unfold gathered. cbn [fst]. by rewrite !length_fmap, length_seq. Qed.

(** The counter and the registry stay in step (the [assert] of the
    source), as long as the counter does not wrap. *)
Lemma admit_loop_numbering p xim s ms :
  gmatrices s = [] → (N.of_nat (length ms) < 2 ^ 32)%N →
  let st := admit_loop p xim s ms in
  length (gmatrices st.1) ≤ length ms ∧
  realMatrixNum st.2 = N.of_nat (length (gmatrices st.1)) ∧
  matrix_num <$> gmatrices st.1 =
    N.of_nat <$> seq 0 (length (gmatrices st.1)) ∧
  (gmatrices st.1 ≠ [] → gqueuedata st.1 = length (gmatrices st.1)).
Proof.
  intros Hgm. induction ms as [|m ms IH] using rev_ind; intros Hlen st.
  - unfold st. simpl. rewrite Hgm. done.
  - rewrite length_app in Hlen. simpl in Hlen.
    destruct IH as (Hle & Hreal & Hnum & Hgq); [lia|].
    unfold st. rewrite admit_loop_snoc, length_app. simpl.
    set (st0 := admit_loop p xim s ms) in *.
    pose proof (admit_step_gqueuedata p xim st0 m) as Hq.
    destruct (decide (rows m = 0%N)) as [Hr|Hr].
    + rewrite admit_step_skip by done. split; [lia|]. done.
    + rewrite (proj2 (N.eqb_neq _ _) Hr) in Hq. cbn [negb andb] in Hq.
      destruct (use_matrix_of p st0 m) eqn:Hu.
      * destruct (admit_step_accept p xim st0 m Hr Hu) as (Hg & _ & Hk).
        rewrite Hg, Hk, Hq, length_app, fmap_app, Hnum, Hreal. simpl.
        rewrite u32_small by lia. split; [lia|]. split; [lia|]. split.
        -- rewrite Nat.add_1_r, seq_S, fmap_app. done.
        -- intros _. lia.
      * destruct (admit_step_reject p xim st0 m Hr Hu) as (Hg & _ & Hk).
        rewrite Hg, Hk, Hq. split; [lia|]. done.
Qed.

End admission_extras.

Section admission_properties.
Context `{!Collaborators}.

(** X9.  The matrices the routine makes are numbered 0, 1, 2, ... in the
    order they are made; the number it returns is how many there are (the
    [assert] on [solver->gmatrices.size()]); there is at most one per
    component; and once a matrix is made [gqueuedata] has one slot per
    matrix. *)
Theorem matrices_numbered p s :
  gmatrices s = [] →
  well_placed p (xorclauses s) →
  (∀ sv, sampling_vars (conf s) = Some sv →
         (3 * N.of_nat (length sv) < 2 ^ 32)%N) →
  (N.of_nat (matrix_no p) < 2 ^ 32)%N →
  ∃ r,
    setup_matrices_attach_remaining_cls p s = Some r ∧
    r.2 = N.of_nat (length (gmatrices r.1)) ∧
    matrix_num <$> gmatrices r.1 =
      N.of_nat <$> seq 0 (length (gmatrices r.1)) ∧
    length (gmatrices r.1) ≤ matrix_no p ∧
    (gmatrices r.1 ≠ [] → gqueuedata r.1 = length (gmatrices r.1)).
Proof.
  intros Hgm Hwp Hsv Hno.
  destruct (setup_runs p s Hwp Hsv) as (c' & ms & _ & Hms & ->).
  assert (length ms = matrix_no p) as Hlen.
  { by rewrite Hms, gathered_shapes_length. }
  destruct (admit_loop_numbering p (gathered p (xorclauses s)).2
              (set_xorclauses [] (set_conf c' s)) ms)
    as (Hle & Hreal & Hnum & Hgq); [done|by rewrite Hlen|].
  eexists. split; [done|]. cbn [fst snd gmatrices gqueuedata
    attach_xorclauses]. rewrite <-Hlen. done.
Qed.

Lemma admit_loop_capped p xim s ms :
  sampling_vars (conf s) = None → gmatrices s = [] →
  (max_num_matrices (gaussconf (conf s)) < 2 ^ 32)%N →
  let st := admit_loop p xim s ms in
  realMatrixNum st.2 = N.of_nat (length (gmatrices st.1)) ∧
  (realMatrixNum st.2 ≤ max_num_matrices (gaussconf (conf s)))%N.
Proof.
  intros Hsv Hgm Hmax. induction ms as [|m ms IH] using rev_ind; intros st.
  - unfold st. simpl. rewrite Hgm. simpl. lia.
  - destruct IH as [Hreal Hle]. unfold st. rewrite admit_loop_snoc.
    set (st0 := admit_loop p xim s ms) in *.
    destruct (decide (rows m = 0%N)) as [Hr|Hr].
    + by rewrite admit_step_skip.
    + destruct (use_matrix_of p st0 m) eqn:Hu.
      * destruct (admit_step_accept p xim st0 m Hr Hu) as (Hg & _ & Hk).
        assert (conf st0.1 = conf s) as Hconf by apply admit_loop_conf.
        rewrite use_matrix_no_sampling in Hu by by rewrite Hconf.
        rewrite Hconf in Hu.
        unfold fits_thresholds in Hu. apply andb_true_iff in Hu as [_ Hu].
        apply N.ltb_lt in Hu.
        rewrite Hg, Hk, length_app. simpl. rewrite u32_small by lia. lia.
      * destruct (admit_step_reject p xim st0 m Hr Hu) as (Hg & _ & Hk).
        by rewrite Hg, Hk.
Qed.

(** X10.  Without sampling variables the routine never makes more than
    [max_num_matrices] matrices. *)
Theorem matrices_capped p s :
  sampling_vars (conf s) = None → gmatrices s = [] →
  (max_num_matrices (gaussconf (conf s)) < 2 ^ 32)%N →
  well_placed p (xorclauses s) →
  ∃ r,
    setup_matrices_attach_remaining_cls p s = Some r ∧
    (N.of_nat (length (gmatrices r.1))
       ≤ max_num_matrices (gaussconf (conf s)))%N.
Proof.
  intros Hsv Hgm Hmax Hwp.
  destruct (setup_runs p s Hwp) as (c' & ms & Hc' & _ & ->).
  { intros sv Hsv'. congruence. }
  assert (c' = conf s) as ->.
  { unfold raise_max_matrix_rows in Hc'. rewrite Hsv in Hc'. congruence. }
  destruct (admit_loop_capped p (gathered p (xorclauses s)).2
              (set_xorclauses [] (set_conf (conf s) s)) ms)
    as [Hreal Hle]; [done..|].
  eexists. split; [done|]. cbn [fst gmatrices attach_xorclauses].
  rewrite <-Hreal. exact Hle.
Qed.

(** X11.  A component with fewer rows than [min_matrix_rows] is never
    accepted, with or without sampling variables: the override applies
    only above [min_matrix_rows].  Its XORs go to the pool. *)
Theorem undersized_rejected p xim s pre m :
  (rows m < min_matrix_rows (gaussconf (conf s)))%N →
  rows m = N.of_nat (length (xim !!! num m)) →
  let st := admit_loop p xim s pre in
  let st' := admit_loop p xim s (pre ++ [m]) in
  gmatrices st'.1 = gmatrices st.1 ∧
  realMatrixNum st'.2 = realMatrixNum st.2 ∧
  xorclauses st'.1 = xorclauses st.1 ++ returned xim m.
Proof.
  intros Hlow Hcount st st'. unfold st'. rewrite admit_loop_snoc. fold st.
  destruct (decide (rows m = 0%N)) as [Hr|Hr].
  - rewrite admit_step_skip by done.
    assert (xim !!! num m = []) as Hnil.
    { apply length_zero_iff_nil. lia. }
    unfold returned. rewrite Hnil. simpl. by rewrite app_nil_r.
  - assert (Hu : use_matrix_of p st m = false).
    { unfold use_matrix_of, final_decision, size_checks. cbv zeta.
      unfold st. rewrite !admit_loop_conf.
      rewrite (proj2 (N.ltb_lt _ _) Hlow).
      destruct (N.ltb_spec (min_matrix_rows (gaussconf (conf s))) (rows m));
        [lia|].
      cbn [fst snd]. rewrite andb_true_r.
      by repeat case_match. }
    destruct (admit_step_reject p xim st m Hr Hu) as (? & ? & ?). done.
Qed.

(** X12.  Without sampling variables a component that has rows is accepted
    exactly when [rows <= max_matrix_rows], [cols <= max_matrix_columns],
    [rows >= min_matrix_rows] and fewer than [max_num_matrices] matrices
    have been made; otherwise its XORs go to the pool. *)
Theorem accepted_iff_fits p xim s pre m :
  sampling_vars (conf s) = None → rows m ≠ 0%N →
  let st := admit_loop p xim s pre in
  let st' := admit_loop p xim s (pre ++ [m]) in
  if fits_thresholds (gaussconf (conf s)) (realMatrixNum st.2) m
  then gmatrices st'.1 =
         gmatrices st.1 ++ [{| matrix_num := realMatrixNum st.2;
                               matrix_xors := xim !!! num m |}] ∧
       xorclauses st'.1 = xorclauses st.1
  else gmatrices st'.1 = gmatrices st.1 ∧
       xorclauses st'.1 = xorclauses st.1 ++ returned xim m.
Proof.
  intros Hsv Hr st st'. unfold st'. rewrite admit_loop_snoc. fold st.
  assert (conf st.1 = conf s) as Hconf by apply admit_loop_conf.
  pose proof (use_matrix_no_sampling p st m) as Hu.
  rewrite Hconf in Hu. specialize (Hu Hsv).
  destruct (fits_thresholds (gaussconf (conf s)) (realMatrixNum st.2) m).
  - destruct (admit_step_accept p xim st m Hr Hu) as (? & ? & _). done.
  - destruct (admit_step_reject p xim st m Hr Hu) as (? & ? & _). done.
Qed.

(** X13.  The routine gives the scratch array [seen] back as it found it:
    clear. *)
Theorem seen_restored p s :
  seen_clear (seen s) →
  well_placed p (xorclauses s) →
  (∀ sv, sampling_vars (conf s) = Some sv →
         (3 * N.of_nat (length sv) < 2 ^ 32)%N) →
  ∃ r,
    setup_matrices_attach_remaining_cls p s = Some r ∧
    seen r.1 = seen s.
Proof.
  intros Hc Hwp Hsv.
  destruct (setup_runs p s Hwp Hsv) as (c' & ms & _ & _ & ->).
  eexists. split; [done|]. cbn [fst seen attach_xorclauses].
  by rewrite admit_loop_seen.
Qed.

(** X14.  The routine changes nothing of the configuration but
    [max_matrix_rows], which it never lowers: it becomes the larger of its
    old value and three times the number of sampling variables. *)
Theorem configuration_frame p s :
  well_placed p (xorclauses s) →
  (∀ sv, sampling_vars (conf s) = Some sv →
         (3 * N.of_nat (length sv) < 2 ^ 32)%N) →
  let wanted := match sampling_vars (conf s) with
                | Some sv => (3 * N.of_nat (length sv))%N
                | None => 0%N
                end in
  ∃ r,
    setup_matrices_attach_remaining_cls p s = Some r ∧
    conf r.1 =
      set_max_matrix_rows
        (N.max (max_matrix_rows (gaussconf (conf s))) wanted) (conf s).
Proof.
  intros Hwp Hsv wanted.
  destruct (setup_runs p s Hwp Hsv) as (c' & ms & Hc' & _ & ->).
  eexists. split; [done|]. cbn [fst conf attach_xorclauses].
  rewrite admit_loop_conf. cbn [conf set_xorclauses set_conf].
  unfold raise_max_matrix_rows in Hc'. unfold wanted.
  destruct (conf s) as [[? ? ? mr ? ? ?] [sv|]]; simpl in *.
  - destruct (2 ^ 32 <=? 3 * N.of_nat (length sv))%N; [done|].
    destruct (N.ltb_spec mr (3 * N.of_nat (length sv))) as [Hlt|Hge];
      injection Hc' as <-; unfold set_max_matrix_rows; simpl.
    + by rewrite N.max_r by lia.
    + by rewrite N.max_l by lia.
  - injection Hc' as <-. unfold set_max_matrix_rows. simpl.
    by rewrite N.max_0_r.
Qed.

(** X15.  With a configured but empty set of sampling variables the ratio
    is 0/0, which is not at least 0.6: every component with more than
    [min_matrix_rows] rows is rejected, whatever its size. *)
Theorem empty_sampling_rejects p xim s pre m :
  sampling_vars (conf s) = Some [] →
  (min_matrix_rows (gaussconf (conf s)) < rows m)%N →
  let st := admit_loop p xim s pre in
  let st' := admit_loop p xim s (pre ++ [m]) in
  gmatrices st'.1 = gmatrices st.1 ∧
  xorclauses st'.1 = xorclauses st.1 ++ returned xim m.
Proof.
  intros Hsv Hrows st st'. unfold st'. rewrite admit_loop_snoc. fold st.
  assert (Hr : rows m ≠ 0%N) by lia.
  assert (Hu : use_matrix_of p st m = false).
  { unfold use_matrix_of, final_decision, ratio_sampling_block. cbv zeta.
    unfold st. rewrite !admit_loop_conf, Hsv.
    rewrite (proj2 (N.ltb_lt _ _) Hrows).
    rewrite bool_decide_eq_true_2 by eauto.
    unfold calc_ratio_sampling. cbv zeta. cbn [foldl fst snd]. reflexivity. }
  destruct (admit_step_reject p xim st m Hr Hu) as (? & ? & _). done.
Qed.

End admission_properties.

Lemma matrices_numbered_witness :
  gmatrices demo_sampled = [] ∧
  (N.of_nat (matrix_no (partition_loop 6 demo_xors)) < 2 ^ 32)%N ∧
  ∃ r,
    @setup_matrices_attach_remaining_cls (demo_collaborators true)
      (partition_loop 6 demo_xors) demo_sampled = Some r ∧
    r.2 = N.of_nat (length (gmatrices r.1)) ∧
    matrix_num <$> gmatrices r.1 =
      N.of_nat <$> seq 0 (length (gmatrices r.1)) ∧
    length (gmatrices r.1) ≤ matrix_no (partition_loop 6 demo_xors) ∧
    (gmatrices r.1 ≠ [] → gqueuedata r.1 = length (gmatrices r.1)).
Proof.
  assert (H : (N.of_nat (matrix_no (partition_loop 6 demo_xors))
               < 2 ^ 32)%N) by by vm_compute.
  split; [reflexivity|]. split; [exact H|].
  apply (@matrices_numbered (demo_collaborators true)
           (partition_loop 6 demo_xors) demo_sampled eq_refl
           demo_well_placed); [|exact H].
  intros sv [= <-]. by vm_compute.
Defined.

Lemma matrices_capped_witness :
  sampling_vars (conf demo_plain) = None ∧
  (max_num_matrices (gaussconf (conf demo_plain)) < 2 ^ 32)%N ∧
  ∃ r,
    @setup_matrices_attach_remaining_cls (demo_collaborators true)
      (partition_loop 6 demo_xors) demo_plain = Some r ∧
    (N.of_nat (length (gmatrices r.1))
       ≤ max_num_matrices (gaussconf (conf demo_plain)))%N.
Proof.
  split; [reflexivity|]. split; [reflexivity|].
  exact (@matrices_capped (demo_collaborators true)
           (partition_loop 6 demo_xors) demo_plain eq_refl eq_refl eq_refl
           demo_well_placed).
Defined.

Lemma undersized_rejected_witness :
  (rows demo_shape < min_matrix_rows (gaussconf (conf demo_strict)))%N ∧
  rows demo_shape = N.of_nat (length (demo_buckets !!! num demo_shape)) ∧
  let p := partition_loop 6 demo_xors in
  let st := @admit_loop (demo_collaborators true) p demo_buckets
              demo_strict [] in
  let st' := @admit_loop (demo_collaborators true) p demo_buckets
               demo_strict ([] ++ [demo_shape]) in
  gmatrices st'.1 = gmatrices st.1 ∧
  realMatrixNum st'.2 = realMatrixNum st.2 ∧
  xorclauses st'.1 = xorclauses st.1 ++ returned demo_buckets demo_shape.
Proof.
  split; [reflexivity|]. split; [reflexivity|].
  exact (@undersized_rejected (demo_collaborators true)
           (partition_loop 6 demo_xors) demo_buckets demo_strict []
           demo_shape eq_refl eq_refl).
Defined.

Lemma accepted_iff_fits_witness :
  sampling_vars (conf demo_roomy) = None ∧
  rows demo_shape ≠ 0%N ∧
  let p := partition_loop 6 demo_xors in
  let st := @admit_loop (demo_collaborators true) p demo_buckets
              demo_roomy [] in
  let st' := @admit_loop (demo_collaborators true) p demo_buckets
               demo_roomy ([] ++ [demo_shape]) in
  if fits_thresholds (gaussconf (conf demo_roomy)) (realMatrixNum st.2)
       demo_shape
  then gmatrices st'.1 =
         gmatrices st.1 ++ [{| matrix_num := realMatrixNum st.2;
                               matrix_xors := demo_buckets !!! num demo_shape |}] ∧
       xorclauses st'.1 = xorclauses st.1
  else gmatrices st'.1 = gmatrices st.1 ∧
       xorclauses st'.1 = xorclauses st.1 ++ returned demo_buckets demo_shape.
Proof.
  assert (H : rows demo_shape ≠ 0%N) by discriminate.
  split; [reflexivity|]. split; [exact H|].
  exact (@accepted_iff_fits (demo_collaborators true)
           (partition_loop 6 demo_xors) demo_buckets demo_roomy []
           demo_shape eq_refl H).
Defined.

Lemma seen_restored_witness :
  seen_clear (seen demo_sampled) ∧
  ∃ r,
    @setup_matrices_attach_remaining_cls (demo_collaborators true)
      (partition_loop 6 demo_xors) demo_sampled = Some r ∧
    seen r.1 = seen demo_sampled.
Proof.
  split; [exact (demo_seen_clear _)|].
  apply (@seen_restored (demo_collaborators true)
           (partition_loop 6 demo_xors) demo_sampled (demo_seen_clear _)
           demo_well_placed).
  intros sv [= <-]. by vm_compute.
Defined.

Lemma configuration_frame_witness :
  ∃ r,
    @setup_matrices_attach_remaining_cls (demo_collaborators true)
      (partition_loop 6 demo_xors) demo_sampled = Some r ∧
    conf r.1 =
      set_max_matrix_rows
        (N.max (max_matrix_rows (gaussconf (conf demo_sampled))) 3)
        (conf demo_sampled).
Proof.
  apply (@configuration_frame (demo_collaborators true)
           (partition_loop 6 demo_xors) demo_sampled demo_well_placed).
  intros sv [= <-]. by vm_compute.
Defined.

Lemma empty_sampling_rejects_witness :
  sampling_vars (conf demo_empty_sampling) = Some [] ∧
  (min_matrix_rows (gaussconf (conf demo_empty_sampling))
     < rows demo_shape)%N ∧
  let p := partition_loop 6 demo_xors in
  let st := @admit_loop (demo_collaborators true) p demo_buckets
              demo_empty_sampling [] in
  let st' := @admit_loop (demo_collaborators true) p demo_buckets
               demo_empty_sampling ([] ++ [demo_shape]) in
  gmatrices st'.1 = gmatrices st.1 ∧
  xorclauses st'.1 = xorclauses st.1 ++ returned demo_buckets demo_shape.
Proof.
  split; [reflexivity|]. split; [reflexivity|].
  exact (@empty_sampling_rejects (demo_collaborators true)
           (partition_loop 6 demo_xors) demo_buckets demo_empty_sampling []
           demo_shape eq_refl eq_refl).
Defined.

(** ** Matrices are independent *)

Lemma elem_of_concat_fmap {A B} (f : A → list B) (l : list A) (y : B) :
  y ∈ concat (f <$> l) ↔ ∃ a, a ∈ l ∧ y ∈ f a.
Proof.
  induction l as [|a l IH]; simpl.
  - split; [by intros ?%elem_of_nil|]. by intros (a & ?%elem_of_nil & _).
  - rewrite elem_of_app, IH. split.
    + intros [Hy|(b & Hb & Hy)].
      * exists a. split; [apply list_elem_of_here|done].
      * exists b. split; [by apply list_elem_of_further|done].
    + intros (b & Hb & Hy). apply elem_of_cons in Hb as [->|Hb].
      * by left.
      * right. by exists b.
Qed.

Section independence.
Context `{!Collaborators}.

(** Which components the loop accepted, rejected and skipped. *)
Lemma admit_loop_provenance p xim s ms :
  ∃ new acc rej skipped,
    gmatrices (admit_loop p xim s ms).1 = gmatrices s ++ new ∧
    matrix_xors <$> new = (λ m, xim !!! num m) <$> acc ∧
    xorclauses (admit_loop p xim s ms).1 =
      xorclauses s ++ concat (returned xim <$> rej) ∧
    acc ++ rej ++ skipped ≡ₚ ms.
Proof.
  induction ms as [|m ms IH] using rev_ind.
  - exists [], [], [], []. simpl. by rewrite !app_nil_r.
  - destruct IH as (new & acc & rej & skipped & Hg & Hacc & Hx & Hperm).
    rewrite admit_loop_snoc. set (st := admit_loop p xim s ms) in *.
    destruct (decide (rows m = 0%N)) as [Hr|Hr].
    + rewrite admit_step_skip by done.
      exists new, acc, rej, (skipped ++ [m]).
      split; [done|]. split; [done|]. split; [done|].
      rewrite !app_assoc. apply Permutation_app_tail.
      by rewrite <-app_assoc.
    + destruct (use_matrix_of p st m) eqn:Hu.
      * destruct (admit_step_accept p xim st m Hr Hu) as (Hg' & Hx' & _).
        rewrite Hg', Hx'.
        exists (new ++ [{| matrix_num := realMatrixNum st.2;
                           matrix_xors := xim !!! num m |}]),
               (acc ++ [m]), rej, skipped.
        rewrite Hg, <-app_assoc, !fmap_app, Hacc. simpl.
        split; [done|]. split; [done|]. split; [done|].
        rewrite <-Hperm, <-!app_assoc. apply Permutation_app_head.
        rewrite (app_assoc rej skipped [m]), <-Permutation_cons_append.
        done.
      * destruct (admit_step_reject p xim st m Hr Hu) as (Hg' & Hx' & _).
        rewrite Hg', Hx'.
        exists new, acc, (rej ++ [m]), skipped.
        rewrite Hx, <-app_assoc, fmap_app, concat_app. simpl.
        rewrite app_nil_r.
        split; [done|]. split; [done|]. split; [done|].
        rewrite <-Hperm, <-!app_assoc. apply Permutation_app_head.
        apply Permutation_app_head. simpl.
        by rewrite <-Permutation_cons_append.
Qed.

(** XORs filed under different components share no variable. *)
Lemma rows_of_separate nv xs i j x y w :
  Forall (vars_in_range nv) xs →
  x ∈ rows_of (partition_loop nv xs) i xs →
  y ∈ rows_of (partition_loop nv xs) j xs →
  w ∈ vars x → w ∈ vars y → i = j.
Proof.
  intros Hrange Hx Hy Hwx Hwy.
  destruct (partition_loop_spec nv xs Hrange) as [_ Hrel].
  assert (Hhead : ∀ z k, z ∈ rows_of (partition_loop nv xs) k xs →
            w ∈ vars z →
            ∃ u, tbl (table (partition_loop nv xs)) u = Some k ∧
                 chain xs u w).
  { intros z k Hz Hwz. unfold rows_of in Hz.
    apply list_elem_of_filter in Hz as [[_ Hc] Hz].
    unfold component_of in Hc.
    destruct (vars z) as [|u vs] eqn:E; [done|]. simpl in Hc.
    exists u. split; [done|].
    apply (chain_xor xs z); [done| |by rewrite E].
    rewrite E. apply list_elem_of_here. }
  destruct (Hhead x i Hx Hwx) as (u & Hu & Hcu).
  destruct (Hhead y j Hy Hwy) as (u' & Hu' & Hcu').
  assert (chain xs u u') as Hc.
  { apply (chain_trans xs u w u'); [done|by apply chain_sym]. }
  apply Hrel in Hc as (c & H1 & H2). congruence.
Qed.

Lemma gathered_nums p xs :
  num <$> (compute_density <$> (gathered p xs).1) = seq 0 (matrix_no p).
Proof.
  unfold gathered. cbn [fst]. rewrite <-!list_fmap_compose.
  rewrite <-(list_fmap_id (seq 0 (matrix_no p))) at 2.
  apply list_fmap_ext. intros _ i _. simpl. by rewrite num_compute_density.
Qed.

(** X16.  What the routine puts into matrices are non-trivial XORs it was
    given; two XORs in different matrices share no variable; and no XOR in
    a matrix shares a variable with an XOR returned to the pool.  So each
    matrix can be eliminated on its own. *)
Theorem matrices_independent nv xs s :
  Forall (vars_in_range nv) xs → nonempty_unless_trivial xs →
  xorclauses s = xs → gmatrices s = [] →
  (∀ sv, sampling_vars (conf s) = Some sv →
         (3 * N.of_nat (length sv) < 2 ^ 32)%N) →
  ∃ r,
    setup_matrices_attach_remaining_cls (partition_loop nv xs) s = Some r ∧
    (∀ g x, g ∈ gmatrices r.1 → x ∈ matrix_xors g →
            x ∈ xs ∧ trivial x = false) ∧
    (∀ j1 j2 g1 g2 x y w,
       gmatrices r.1 !! j1 = Some g1 → gmatrices r.1 !! j2 = Some g2 →
       x ∈ matrix_xors g1 → y ∈ matrix_xors g2 →
       w ∈ vars x → w ∈ vars y → j1 = j2) ∧
    (∀ g x y w,
       g ∈ gmatrices r.1 → x ∈ matrix_xors g → y ∈ xorclauses r.1 →
       w ∈ vars x → w ∈ vars y → False).
Proof.
  intros Hrange Hne Hxs Hgm Hsv. set (p := partition_loop nv xs).
  assert (Hwp : well_placed p (xorclauses s)).
  { rewrite Hxs. by apply partition_loop_well_placed. }
  destruct (setup_runs p s Hwp Hsv) as (c' & ms & _ & Hms & ->).
  rewrite Hxs in *. set (xim := (gathered p xs).2) in *.
  destruct (admit_loop_provenance p xim (set_xorclauses [] (set_conf c' s)) ms)
    as (new & acc & rej & skipped & Hg & Hacc & Hx & Hperm).
  cbn [gmatrices xorclauses set_xorclauses set_conf] in Hg, Hx.
  rewrite Hgm in Hg. simpl in Hg, Hx.
  assert (Hnd : NoDup (num <$> (acc ++ rej ++ skipped))).
  { rewrite Hperm, Hms, gathered_nums. apply NoDup_seq. }
  rewrite !fmap_app in Hnd.
  apply NoDup_app in Hnd as (Hnd_acc & Hacc_rej & _).
  assert (Hbucket : ∀ m, m ∈ acc ++ rej ++ skipped →
            xim !!! num m = rows_of p (num m) xs).
  { intros m Hm. rewrite Hperm, Hms in Hm.
    apply list_elem_of_fmap in Hm as (m0 & -> & Hm0).
    unfold gathered in Hm0. cbn [fst] in Hm0.
    apply list_elem_of_fmap in Hm0 as (i & -> & Hi).
    apply elem_of_seq in Hi as [_ Hi]. rewrite num_compute_density.
    cbn [num shape_of]. by apply gathered_bucket. }
  assert (Hfrom : ∀ j g, new !! j = Some g →
            ∃ m, acc !! j = Some m ∧ matrix_xors g = rows_of p (num m) xs).
  { intros j g Hj.
    assert ((matrix_xors <$> new) !! j = Some (matrix_xors g)) as Hj'.
    { by rewrite list_lookup_fmap, Hj. }
    rewrite Hacc in Hj'.
    apply list_lookup_fmap_Some in Hj' as (m & Hx' & Hm).
    exists m. split; [done|]. rewrite Hx'. apply Hbucket.
    apply elem_of_app. left. by eapply list_elem_of_lookup_2. }
  eexists. split; [done|].
  cbn [fst gmatrices xorclauses attach_xorclauses]. rewrite Hg, Hx.
  split; [|split].
  - intros g x Hgin Hxin. apply list_elem_of_lookup_1 in Hgin as [j Hj].
    destruct (Hfrom j g Hj) as (m & _ & Hmx). rewrite Hmx in Hxin.
    unfold rows_of in Hxin. apply list_elem_of_filter in Hxin as [[? _] ?].
    done.
  - intros j1 j2 g1 g2 x y w Hj1 Hj2 Hx1 Hy2 Hwx Hwy.
    destruct (Hfrom j1 g1 Hj1) as (m1 & Hm1 & E1).
    destruct (Hfrom j2 g2 Hj2) as (m2 & Hm2 & E2).
    rewrite E1 in Hx1. rewrite E2 in Hy2.
    pose proof (rows_of_separate nv xs _ _ x y w Hrange Hx1 Hy2 Hwx Hwy)
      as Hnum.
    apply (NoDup_lookup (num <$> acc) j1 j2 (num m1)); [done| |].
    + by rewrite list_lookup_fmap, Hm1.
    + by rewrite list_lookup_fmap, Hm2, Hnum.
  - intros g x y w Hgin Hxin Hyin Hwx Hwy.
    apply list_elem_of_lookup_1 in Hgin as [j Hj].
    destruct (Hfrom j g Hj) as (m1 & Hm1 & E1). rewrite E1 in Hxin.
    apply elem_of_concat_fmap in Hyin as (m2 & Hm2 & Hyin).
    unfold returned in Hyin.
    apply list_elem_of_fmap in Hyin as (y0 & -> & Hy0).
    rewrite Hbucket in Hy0
      by (apply elem_of_app; right; apply elem_of_app; by left).
    pose proof (rows_of_separate nv xs _ _ x y0 w Hrange Hxin Hy0 Hwx Hwy)
      as Hnum.
    apply (Hacc_rej (num m1)).
    + apply list_elem_of_fmap. exists m1. split; [done|].
      by eapply list_elem_of_lookup_2.
    + apply elem_of_app. left. rewrite Hnum.
      apply list_elem_of_fmap. by exists m2.
Qed.

End independence.

Lemma matrices_independent_witness :
  Forall (vars_in_range 6) demo_xors ∧
  @nonempty_unless_trivial (demo_collaborators true) demo_xors ∧
  ∃ r,
    @setup_matrices_attach_remaining_cls (demo_collaborators true)
      (partition_loop 6 demo_xors) demo_sampled = Some r ∧
    (∀ g x, g ∈ gmatrices r.1 → x ∈ matrix_xors g →
            x ∈ demo_xors ∧ @trivial (demo_collaborators true) x = false) ∧
    (∀ j1 j2 g1 g2 x y w,
       gmatrices r.1 !! j1 = Some g1 → gmatrices r.1 !! j2 = Some g2 →
       x ∈ matrix_xors g1 → y ∈ matrix_xors g2 →
       w ∈ vars x → w ∈ vars y → j1 = j2) ∧
    (∀ g x y w,
       g ∈ gmatrices r.1 → x ∈ matrix_xors g → y ∈ xorclauses r.1 →
       w ∈ vars x → w ∈ vars y → False).
Proof.
  split; [exact demo_vars_in_range|].
  split; [exact (demo_nonempty_unless_trivial true)|].
  apply (@matrices_independent (demo_collaborators true) 6 demo_xors
           demo_sampled demo_vars_in_range
           (demo_nonempty_unless_trivial true) eq_refl eq_refl).
  intros sv [= <-]. by vm_compute.
Defined.

(** ** The exits of [find_matrices] that make no matrix *)

Section skipping.
Context `{!Collaborators}.

Lemma find_matrices_entry s r :
  find_matrices s = Some r →
  decisionLevel s = 0 ∧ ok s = true ∧ gmatrices s = [].
Proof.
  unfold find_matrices. intros Hfm.
  destruct (decide (decisionLevel s = 0)) as [?|Hn];
    [|by rewrite (bool_decide_eq_false_2 _ Hn) in Hfm].
  destruct (ok s) eqn:?; [|by rewrite bool_decide_eq_true_2 in Hfm by done].
  destruct (decide (gmatrices s = [])) as [?|Hn]; [done|].
  rewrite bool_decide_eq_true_2 in Hfm by done.
  by rewrite (bool_decide_eq_false_2 _ Hn) in Hfm.
Qed.

(** X17.  Whenever [find_matrices] returns, the out-parameter
    [matrix_created] is false exactly when the XORs combined without a
    contradiction and one of the two gates on their number fired: fewer
    than [min_gauss_xor_clauses], or more than [max_gauss_xor_clauses] with
    sampling variables configured.  On every other return it is true. *)
Theorem created_flag_iff s r :
  find_matrices s = Some r →
  (matrix_created r = false ↔
   (combined s).1 = true ∧
   (too_few_xors s (N.of_nat (length (combined s).2)) ∨
    too_many_xors s (N.of_nat (length (combined s).2)))).
Proof.
  intros Hfm. destruct (find_matrices_entry s r Hfm) as (Hdl & Hok & Hgm).
  destruct (combined s).1 eqn:Hpre.
  - rewrite find_matrices_prepared in Hfm by done. cbv zeta in Hfm.
    change (xorclauses (prepared s)) with (combined s).2 in Hfm.
    unfold too_few_xors, too_many_xors.
    set (n := N.of_nat (length (combined s).2)) in *.
    set (gc := gaussconf (conf s)) in *.
    destruct (N.ltb_spec n (min_gauss_xor_clauses gc)) as [Hmin|Hmin].
    { injection Hfm as <-. simpl. split; [by intros _; split; [|left]|done]. }
    destruct (N.ltb_spec (max_gauss_xor_clauses gc) n) as [Hmax|Hmax];
      cbn [andb] in Hfm.
    + destruct (decide (is_Some (sampling_vars (conf s)))) as [Hsv|Hsv].
      * rewrite bool_decide_eq_true_2 in Hfm by done.
        injection Hfm as <-. simpl.
        split; [by intros _; split; [|right]|done].
      * rewrite bool_decide_eq_false_2 in Hfm by done.
        assert (matrix_created r = true) as ->.
        { destruct (negb (doMatrixFind gc)); [by injection Hfm as <-|].
          destruct setup_matrices_attach_remaining_cls; [|done].
          by injection Hfm as <-. }
        split; [done|]. intros [_ [?|[_ ?]]]; [lia|done].
    + assert (matrix_created r = true) as ->.
      { destruct (negb (doMatrixFind gc)); [by injection Hfm as <-|].
        destruct setup_matrices_attach_remaining_cls; [|done].
        by injection Hfm as <-. }
      split; [done|]. intros [_ [?|[? _]]]; lia.
  - unfold find_matrices in Hfm.
    rewrite bool_decide_eq_true_2 in Hfm by done. rewrite Hok in Hfm.
    rewrite bool_decide_eq_true_2 in Hfm by done.
    cbn [negb] in Hfm. cbv zeta in Hfm.
    cbn [xorclauses detach_clear_xorclauses set_xorclauses conf nVars]
      in Hfm.
    unfold combined in Hpre. rewrite Hpre in Hfm. cbn [negb] in Hfm.
    injection Hfm as <-. simpl. split; [done|]. by intros [? _].
Qed.

(** X18.  At each of the three exits that skip the matrix finding (too few
    XORs, too many XORs with sampling variables, the switch off) the
    routine returns with nothing partitioned and no matrix; the pool is the
    combined XORs as they are, attached again; the queue data is cleared;
    the clash variables are recorded; the configuration is untouched; and
    the result is that of attaching the XORs. *)
Theorem skipped_run_frame s :
  decisionLevel s = 0 → ok s = true → gmatrices s = [] →
  (combined s).1 = true →
  too_few_xors s (N.of_nat (length (combined s).2)) ∨
  too_many_xors s (N.of_nat (length (combined s).2)) ∨
  switched_off s →
  ∃ r,
    find_matrices s = Some r ∧
    result r = attach_xorclauses_result (combined s).2 ∧
    part_after r = part_init (nVars s) ∧
    gmatrices (solver_after r) = [] ∧
    xorclauses (solver_after r) = (combined s).2 ∧
    xors_attached (solver_after r) = true ∧
    gqueuedata (solver_after r) = 0 ∧
    clash_decision_vars (solver_after r) =
      collect_clash_vars (combined s).2 ∧
    conf (solver_after r) = conf s.
Proof.
  intros Hdl Hok Hgm Hpre Hskip.
  assert (∃ created, find_matrices s =
            Some (skip_matrices created (part_init (nVars s)) (prepared s)))
    as [created ->].
  { rewrite find_matrices_prepared by done. cbv zeta.
    change (xorclauses (prepared s)) with (combined s).2.
    unfold too_few_xors, too_many_xors, switched_off in Hskip.
    destruct (_ <? _)%N eqn:Hmin; [by eexists|].
    destruct (_ && _) eqn:Hmax; [by eexists|].
    destruct (doMatrixFind _) eqn:Hdo; [|by eexists].
    apply N.ltb_ge in Hmin. apply andb_false_iff in Hmax.
    destruct Hskip as [?|[[Hm Hsv]|?]]; [lia| |done].
    destruct Hmax as [Hmax|Hmax].
    - apply N.ltb_ge in Hmax. lia.
    - by rewrite bool_decide_eq_true_2 in Hmax. }
  eexists. split; [done|]. simpl. rewrite Hok, Hgm. done.
Qed.

End skipping.

Lemma created_flag_iff_witness :
  ∃ r,
    @find_matrices (demo_collaborators true) demo_few = Some r ∧
    (matrix_created r = false ↔
     (@combined (demo_collaborators true) demo_few).1 = true ∧
     (too_few_xors demo_few
        (N.of_nat (length (@combined (demo_collaborators true) demo_few).2)) ∨
      too_many_xors demo_few
        (N.of_nat
           (length (@combined (demo_collaborators true) demo_few).2)))).
Proof.
  eexists. split; [vm_compute; reflexivity|].
  apply (@created_flag_iff (demo_collaborators true) demo_few).
  vm_compute. reflexivity.
Defined.

Lemma skipped_run_frame_witness :
  too_few_xors demo_few
    (N.of_nat (length (@combined (demo_collaborators true) demo_few).2)) ∧
  ∃ r,
    @find_matrices (demo_collaborators true) demo_few = Some r ∧
    result r =
      @attach_xorclauses_result (demo_collaborators true)
        (@combined (demo_collaborators true) demo_few).2 ∧
    part_after r = part_init (nVars demo_few) ∧
    gmatrices (solver_after r) = [] ∧
    xorclauses (solver_after r) =
      (@combined (demo_collaborators true) demo_few).2 ∧
    xors_attached (solver_after r) = true ∧
    gqueuedata (solver_after r) = 0 ∧
    clash_decision_vars (solver_after r) =
      collect_clash_vars (@combined (demo_collaborators true) demo_few).2 ∧
    conf (solver_after r) = conf demo_few.
Proof.
  assert (too_few_xors demo_few
    (N.of_nat (length (@combined (demo_collaborators true) demo_few).2)))
    as Hfew by (by vm_compute).
  split; [exact Hfew|].
  apply (@skipped_run_frame (demo_collaborators true) demo_few
           eq_refl eq_refl eq_refl eq_refl (or_introl Hfew)).
Defined.

(** ** The clash variables *)

Lemma collect_clash_vars_fold acc vs v :
  v ∈ foldl (λ acc' u, set_insert u acc') acc vs ↔ v ∈ acc ∨ v ∈ vs.
Proof.
  revert acc. induction vs as [|u vs IH]; intros acc; simpl.
  - split; [by left|]. by intros [?|?%elem_of_nil].
  - rewrite IH, elem_of_set_insert, elem_of_cons. naive_solver.
Qed.

Lemma collect_clash_vars_fold_sorted acc vs :
  StronglySorted lt acc →
  StronglySorted lt (foldl (λ acc' u, set_insert u acc') acc vs).
Proof.
  revert acc. induction vs as [|u vs IH]; intros acc Hacc; simpl; [done|].
  apply IH. by apply set_insert_sorted.
Qed.

(** X19.  The set handed to [set_clash_decision_vars] holds exactly the
    clash variables of the XORs in the pool, each once, in increasing
    order. *)
Theorem clash_vars_collected xs :
  StronglySorted lt (collect_clash_vars xs) ∧
  ∀ v, v ∈ collect_clash_vars xs ↔ ∃ x, x ∈ xs ∧ v ∈ clash_vars x.
Proof.
  unfold collect_clash_vars.
  induction xs as [|x xs [IHs IHe]] using rev_ind.
  - split; [constructor|]. intros v. simpl. split; [by intros ?%elem_of_nil|].
    by intros (x & ?%elem_of_nil & _).
  - rewrite foldl_snoc. split.
    + by apply collect_clash_vars_fold_sorted.
    + intros v. rewrite collect_clash_vars_fold, IHe. split.
      * intros [(y & Hy & Hv)|Hv].
        -- exists y. split; [|done]. apply elem_of_app. by left.
        -- exists x. split; [|done]. apply elem_of_app. right.
           apply list_elem_of_here.
      * intros (y & Hy & Hv). apply elem_of_app in Hy as [Hy|Hy].
        -- left. by exists y.
        -- apply list_elem_of_singleton in Hy as ->. by right.
Qed.
